(** * chalice.deploy.executor: the deployment-plan executor

    A shallow embedding of [chalice/deploy/executor.py]: the variable
    resolver, the plan executor with its variable store and resource
    record index, and the display-only executor of [chalice dev plan].

    Python values are trees; a Python [dict] is an insertion-ordered
    association list wherever its order can be observed (nested values,
    resource records, the spill-over pool) and a [gmap] where it is only
    looked up by key (the variable store).  Objects whose identity the
    executor relies on live in explicit heaps. *)

From Stdlib Require Import ZArith Ascii String List Strings.Byte DecimalString DecimalNat.
From stdpp Require Import gmap strings list fin_maps.

Local Open Scope string_scope.
Local Open Scope list_scope.
#[local] Set Warnings "-register-all,-clear-no-such-hyp".

(** ** Values *)

(** Modelled from the spec: [models.Placeholder], the enumeration of
    sentinels meaning "this value is not yet known"; its declaration is not
    part of executor.py.  A member is identified by its name. *)
Inductive Placeholder :=
| PlaceholderMember (member : string).

(** The values that instruction parameters, stored variables and resolved
    results range over.  [VVariable] and [VStringFormat] are the planner's
    [Variable] and [StringFormat] objects, [VPlaceholder] a member of
    [models.Placeholder]. *)
Inductive Value :=
| VNone
| VBool (b : bool)
| VInt (n : Z)
| VStr (s : string)
| VBytes (b : list byte)
| VList (items : list Value)
| VDict (items : list (string * Value))
| VVariable (name : string)
| VStringFormat (template : string) (variables : list string)
| VPlaceholder (p : Placeholder).

(** Python exceptions the executor raises or lets through;
    [ExternalError] stands for any other exception of the client or of a
    library. *)
Inductive exn :=
| KeyError (key : Value)
| UnresolvedValueError (key : string) (value : Placeholder) (method_name : string)
| RuntimeError (msg : string)
| ValueError (msg : string)
| IndexError
| TypeError
| AttributeError
| ExternalError (msg : string).

Inductive result (A : Type) :=
| Ok (a : A)
| Err (e : exn).
Arguments Ok {A} a.
Arguments Err {A} e.

Definition rbind {A B} (r : result A) (k : A -> result B) : result B :=
  match r with
  | Ok a => k a
  | Err e => Err e
  end.

Declare Scope result_scope.
Delimit Scope result_scope with result.
Notation "x <- r ;; k" := (rbind r (fun x => k))
  (at level 100, r at next level, right associativity) : result_scope.

(** ** Insertion-ordered dictionaries *)

Module Dict.
Section Ops.
Context {A : Type}.

Fixpoint get (d : list (string * A)) (k : string) : option A :=
  match d with
  | [] => None
  | (k', v) :: rest => if String.eqb k' k then Some v else get rest k
  end.

(** [d[k] = v]: an existing key keeps its position, a new one goes last. *)
Fixpoint set (d : list (string * A)) (k : string) (v : A) : list (string * A) :=
  match d with
  | [] => [(k, v)]
  | (k', v') :: rest =>
      if String.eqb k' k then (k', v) :: rest else (k', v') :: set rest k v
  end.

(** [d.update(other)] *)
Definition update (d other : list (string * A)) : list (string * A) :=
  fold_left (fun acc kv => set acc (fst kv) (snd kv)) other d.
End Ops.
End Dict.

(** The invariant of a Python dict: no key occurs twice, at any depth. *)
Fixpoint wf_value (v : Value) : bool :=
  match v with
  | VList items => forallb wf_value items
  | VDict items =>
      bool_decide (NoDup (map fst items))
      && forallb (fun kv => wf_value (snd kv)) items
  | _ => true
  end.

(** Plain data: no [Variable], [StringFormat] or placeholder inside. *)
Fixpoint plain (v : Value) : bool :=
  match v with
  | VList items => forallb plain items
  | VDict items => forallb (fun kv => plain (snd kv)) items
  | VVariable _ | VStringFormat _ _ | VPlaceholder _ => false
  | _ => true
  end.

(** ** VariableResolver *)

Definition set_key (k : string) (e : exn) : exn :=
  match e with
  | UnresolvedValueError _ p m => UnresolvedValueError k p m
  | _ => e
  end.

Definition set_method_name (m : string) (e : exn) : exn :=
  match e with
  | UnresolvedValueError k p _ => UnresolvedValueError k p m
  | _ => e
  end.

(** [variables[name]] on the store. *)
Definition getitem (variables : gmap string Value) (name : string) : result Value :=
  match variables !! name with
  | Some v => Ok v
  | None => Err (KeyError (VStr name))
  end.

(** [{k: variables[k] for k in names}] *)
Fixpoint lookup_all (variables : gmap string Value) (names : list string)
    (acc : list (string * Value)) : result (list (string * Value)) :=
  match names with
  | [] => Ok acc
  | k :: rest =>
      match getitem variables k with
      | Ok v => lookup_all variables rest (Dict.set acc k v)
      | Err e => Err e
      end
  end.

(** The loop of the [dict] branch, over the recursive call [rec]. *)
Definition resolve_items (rec : Value -> result Value) :
    list (string * Value) -> list (string * Value) -> result Value :=
  fix loop items final :=
    match items with
    | [] => Ok (VDict final)
    | (k, v) :: rest =>
        match rec v with
        | Ok r => loop rest (Dict.set final k r)
        | Err e => Err (set_key k e)
        end
    end.

(** The loop of the [list] branch. *)
Definition resolve_elements (rec : Value -> result Value) :
    list Value -> list Value -> result Value :=
  fix loop items final_list :=
    match items with
    | [] => Ok (VList final_list)
    | v :: rest =>
        match rec v with
        | Ok r => loop rest (final_list ++ [r])
        | Err e => Err e
        end
    end.

Section Resolver.
(** [template.format] of the Python library, applied to keyword
    arguments: it gives a string or raises. *)
Variable str_format : string -> list (string * Value) -> result string.

Fixpoint resolve_variables (value : Value) (variables : gmap string Value)
    {struct value} : result Value :=
  match value with
  | VVariable name => getitem variables name
  | VStringFormat template names =>
      match lookup_all variables names [] with
      | Ok v =>
          match str_format template v with
          | Ok s => Ok (VStr s)
          | Err e => Err e
          end
      | Err e => Err e
      end
  | VPlaceholder p => Err (UnresolvedValueError "" p "")
  | VDict items =>
      resolve_items (fun v => resolve_variables v variables) items []
  | VList items =>
      resolve_elements (fun v => resolve_variables v variables) items []
  | _ => Ok value
  end.
End Resolver.

(** ** Instructions and plans *)

(** Modelled from the spec: the instruction classes of [chalice.deploy.models]
    (declared outside executor.py), with the attribute names executor.py
    reads.  [OtherInstruction] is an instance of any further subclass of
    [models.Instruction], given by its class name and its attributes. *)
Inductive Instruction :=
| APICall (method_name : string) (params : Value) (output_var : option string)
| CopyVariable (from_var to_var : string)
| StoreValue (name : string) (value : Value)
| RecordResourceVariable (resource_name resource_type name variable_name : string)
| RecordResourceValue (resource_name resource_type name : string) (value : Value)
| JPSearch (input_var expression output_var : string)
| BuiltinFunction (function_name : string) (args : Value) (output_var : string)
| OtherInstruction (cls : string) (fields : list (string * Value)).

(** [instruction.__class__.__name__] *)
Definition class_name (i : Instruction) : string :=
  match i with
  | APICall _ _ _ => "APICall"
  | CopyVariable _ _ => "CopyVariable"
  | StoreValue _ _ => "StoreValue"
  | RecordResourceVariable _ _ _ _ => "RecordResourceVariable"
  | RecordResourceValue _ _ _ _ => "RecordResourceValue"
  | JPSearch _ _ _ => "JPSearch"
  | BuiltinFunction _ _ _ => "BuiltinFunction"
  | OtherInstruction cls _ => cls
  end.

(** A plan: the instructions in order, and the messages, which the source
    keys by [id(instruction)]; here an instruction is identified by its
    position in the list. *)
Record Plan := {
  instructions : list Instruction;
  messages : gmap nat string
}.

(** ** Strings *)

Definition is_upper (c : ascii) : bool :=
  (65 <=? nat_of_ascii c)%nat && (nat_of_ascii c <=? 90)%nat.
Definition is_lower (c : ascii) : bool :=
  (97 <=? nat_of_ascii c)%nat && (nat_of_ascii c <=? 122)%nat.
Definition is_digit (c : ascii) : bool :=
  (48 <=? nat_of_ascii c)%nat && (nat_of_ascii c <=? 57)%nat.

Definition lower_char (c : ascii) : ascii :=
  if is_upper c then ascii_of_nat (nat_of_ascii c + 32) else c.
Definition upper_char (c : ascii) : ascii :=
  if is_lower c then ascii_of_nat (nat_of_ascii c - 32) else c.

Fixpoint map_string (f : ascii -> ascii) (s : string) : string :=
  match s with
  | EmptyString => EmptyString
  | String c rest => String (f c) (map_string f rest)
  end.

(** [s.lower()] and [s.upper()], on ASCII letters. *)
Definition lower (s : string) : string := map_string lower_char s.
Definition upper (s : string) : string := map_string upper_char s.

(** [s.split(sep)] for a one-character separator. *)
Fixpoint split (sep : ascii) (s : string) : list string :=
  match s with
  | EmptyString => [EmptyString]
  | String c rest =>
      if Ascii.eqb c sep then EmptyString :: split sep rest
      else match split sep rest with
           | [] => [String c EmptyString]
           | p :: ps => String c p :: ps
           end
  end.

(** ['%s' % n] for a length. *)
Definition decimal (n : nat) : string := NilEmpty.string_of_uint (Nat.to_uint n).

Fixpoint spaces (n : nat) : string :=
  match n with
  | O => EmptyString
  | S m => String " " (spaces m)
  end.

(** ['%-Ns' % s] and ['%Ns' % s] *)
Definition ljust (n : nat) (s : string) : string := s +:+ spaces (n - String.length s).
Definition rjust (n : nat) (s : string) : string := spaces (n - String.length s) +:+ s.

(** ['\n'.join(lines)] *)
Fixpoint join (sep : string) (lines : list string) : string :=
  match lines with
  | [] => EmptyString
  | [l] => l
  | l :: rest => l +:+ sep +:+ join sep rest
  end.

Definition newline : string := String (ascii_of_nat 10) EmptyString.

(** ** Executor *)

(** [resolved_args[0]] *)
Definition subscript0 (v : Value) : result Value :=
  match v with
  | VList (x :: _) => Ok x
  | VList [] => Err IndexError
  | VStr (String c _) => Ok (VStr (String c EmptyString))
  | VStr EmptyString => Err IndexError
  | VBytes (b :: _) => Ok (VInt (Z.of_N (Byte.to_N b)))
  | VBytes [] => Err IndexError
  | VDict _ => Err (KeyError (VInt 0))
  | _ => Err TypeError
  end.

(** [value.split(':')] *)
Definition split_colon (v : Value) : result (list string) :=
  match v with
  | VStr s => Ok (split ":" s)
  | VBytes _ => Err TypeError
  | _ => Err AttributeError
  end.

(** [parts[i]] *)
Definition part (parts : list string) (i : nat) : result string :=
  match parts !! i with
  | Some p => Ok p
  | None => Err IndexError
  end.

(** Keys of the resource index are compared as Python compares dict keys
    ([True == 1]); lists and dicts are unhashable, the planner's objects and
    the placeholders are taken to be hashable and compared by their
    attributes. *)
Definition hashable (v : Value) : bool :=
  match v with
  | VList _ | VDict _ => false
  | _ => true
  end.

#[global] Instance byte_eq_dec : EqDecision byte := Byte.byte_eq_dec.

Definition key_eqb (a b : Value) : bool :=
  match a, b with
  | VNone, VNone => true
  | VBool x, VBool y => Bool.eqb x y
  | VInt x, VInt y => Z.eqb x y
  | VBool x, VInt y | VInt y, VBool x => Z.eqb (if x then 1%Z else 0%Z) y
  | VStr x, VStr y => String.eqb x y
  | VBytes x, VBytes y => bool_decide (x = y)
  | VVariable x, VVariable y => String.eqb x y
  | VStringFormat t ns, VStringFormat t' ns' => String.eqb t t' && bool_decide (ns = ns')
  | VPlaceholder (PlaceholderMember x), VPlaceholder (PlaceholderMember y) => String.eqb x y
  | _, _ => false
  end.

Fixpoint index_get (index : list (Value * nat)) (key : Value) : option nat :=
  match index with
  | [] => None
  | (k, l) :: rest => if key_eqb k key then Some l else index_get rest key
  end.

Definition unknown_instruction_error (instruction : Instruction) : exn :=
  RuntimeError ("Deployment executor encountered an unknown instruction: "
                  +:+ class_name instruction).

(** The dict literal of the two record handlers:
    [{'name': resource_name, 'resource_type': resource_type, name: value}];
    a later key of the literal replaces an equal earlier one. *)
Definition record_payload (resource_name resource_type name : string) (value : Value)
    : list (string * Value) :=
  Dict.set (Dict.set [("name", VStr resource_name)]
              "resource_type" (VStr resource_type)) name value.

Section Executor.
Variable str_format : string -> list (string * Value) -> result string.
(** The state of the API client, and [getattr(self._client, name)]: the
    method, applied to keyword arguments, returns or raises and moves
    the client to a new state. *)
Context {C : Type}.
Variable client_method :
  string -> option (list (string * Value) -> C -> result Value * C).
(** [jmespath.search(expression, v)] *)
Variable jmespath_search : string -> Value -> result Value.

(** The executor object.  [objects] holds the objects the variable store
    binds, by address: [variables] maps a name to the address of its
    object, so that two names can be bound to one object.  [records] holds
    the payload dicts, which [_resource_value_index] and [resource_values]
    both refer to by address.  Below the top level an object holds its
    parts by value: the executor mutates no nested object in place. *)
Record Executor := {
  objects : list Value;
  variables : gmap string nat;
  records : list (list (string * Value));
  _resource_value_index : list (Value * nat);
  resource_values : list nat;
  ui : list string;
  client : C
}.

Definition with_objects (o : list Value) (st : Executor) : Executor :=
  {| objects := o; variables := variables st; records := records st;
     _resource_value_index := _resource_value_index st;
     resource_values := resource_values st; ui := ui st; client := client st |}.
Definition with_variables (v : gmap string nat) (st : Executor) : Executor :=
  {| objects := objects st; variables := v; records := records st;
     _resource_value_index := _resource_value_index st;
     resource_values := resource_values st; ui := ui st; client := client st |}.
Definition with_records (r : list (list (string * Value))) (st : Executor) : Executor :=
  {| objects := objects st; variables := variables st; records := r;
     _resource_value_index := _resource_value_index st;
     resource_values := resource_values st; ui := ui st; client := client st |}.
Definition with_index (ix : list (Value * nat)) (st : Executor) : Executor :=
  {| objects := objects st; variables := variables st; records := records st;
     _resource_value_index := ix;
     resource_values := resource_values st; ui := ui st; client := client st |}.
Definition with_resource_values (rv : list nat) (st : Executor) : Executor :=
  {| objects := objects st; variables := variables st; records := records st;
     _resource_value_index := _resource_value_index st;
     resource_values := rv; ui := ui st; client := client st |}.
Definition with_ui (u : list string) (st : Executor) : Executor :=
  {| objects := objects st; variables := variables st; records := records st;
     _resource_value_index := _resource_value_index st;
     resource_values := resource_values st; ui := u; client := client st |}.
Definition with_client (c : C) (st : Executor) : Executor :=
  {| objects := objects st; variables := variables st; records := records st;
     _resource_value_index := _resource_value_index st;
     resource_values := resource_values st; ui := ui st; client := c |}.

(** [Executor(client, ui)] *)
Definition new_executor (c : C) : Executor :=
  {| objects := []; variables := ∅; records := [];
     _resource_value_index := []; resource_values := []; ui := []; client := c |}.

(** A method either returns or raises; what it did to the executor
    before raising stays done. *)
Definition M (A : Type) : Type := Executor -> result A * Executor.

Definition ret {A} (a : A) : M A := fun st => (Ok a, st).
Definition raise {A} (e : exn) : M A := fun st => (Err e, st).
Definition bind {A B} (m : M A) (k : A -> M B) : M B :=
  fun st => match m st with
            | (Ok a, st') => k a st'
            | (Err e, st') => (Err e, st')
            end.
Definition lift {A} (r : result A) : M A := fun st => (r, st).
Definition modify (f : Executor -> Executor) : M unit := fun st => (Ok tt, f st).

Notation "x <~ m ;; k" := (bind m (fun x => k))
  (at level 100, m at next level, right associativity).
Notation "m ;;; k" := (bind m (fun _ => k))
  (at level 100, right associativity).

(** The object at an address, and the store as the resolver sees it. *)
Definition deref (st : Executor) (l : nat) : Value := default VNone (objects st !! l).
Definition store_view (st : Executor) : gmap string Value := deref st <$> variables st.

(** What the caller reads: a variable's value, and the list
    [resource_values] of records. *)
Definition read_var (st : Executor) (name : string) : option Value :=
  store_view st !! name.
Definition record_at (st : Executor) (l : nat) : list (string * Value) :=
  default [] (records st !! l).
Definition output (st : Executor) : list (list (string * Value)) :=
  map (record_at st) (resource_values st).

(** [self.variables[name]], as the object bound and as its value. *)
Definition lookup_object (name : string) : M nat :=
  fun st => match variables st !! name with
            | Some l => (Ok l, st)
            | None => (Err (KeyError (VStr name)), st)
            end.
Definition lookup_value (name : string) : M Value :=
  fun st => (getitem (store_view st) name, st).

(** A new object, and [self.variables[name] = <object>]. *)
Definition new_object (v : Value) : M nat :=
  fun st => (Ok (length (objects st)), with_objects (objects st ++ [v]) st).
Definition setitem (name : string) (l : nat) : M unit :=
  modify (fun st => with_variables (<[name := l]> (variables st)) st).
Definition ui_write (msg : string) : M unit :=
  modify (fun st => with_ui (ui st ++ [msg]) st).

(** [self._variable_resolver.resolve_variables(value, self.variables)],
    by value. *)
Definition resolve (value : Value) : M Value :=
  fun st => (resolve_variables str_format value (store_view st), st).

(** The same call as an object: for a [Variable] the resolver returns
    the bound object itself (line 140), otherwise a new one. *)
Definition resolve_object (value : Value) : M nat :=
  match value with
  | VVariable name => lookup_object name
  | _ => r <~ resolve value ;; new_object r
  end.

Definition _default_handler (instruction : Instruction) : M unit :=
  raise (unknown_instruction_error instruction).

Definition _resolve_variables (api_call : Instruction) : M Value :=
  match api_call with
  | APICall method_name params _ =>
      fun st => match resolve_variables str_format params (store_view st) with
                | Ok v => (Ok v, st)
                | Err e => (Err (set_method_name method_name e), st)
                end
  | _ => raise AttributeError
  end.

(** [method( **final_kwargs )] *)
Definition call (method : list (string * Value) -> C -> result Value * C)
    (final_kwargs : Value) : M Value :=
  match final_kwargs with
  | VDict kwargs =>
      fun st => let (r, c) := method kwargs (client st) in (r, with_client c st)
  | _ => raise TypeError
  end.

(** The handlers take the instruction as an object; one of another class
    than the handler reads lacks the attributes, which is an
    [AttributeError].  [execute] hands a handler the instructions whose
    class is called as the handler in lower case: among the classes of
    [chalice.deploy.models] that is the handler's own class only.  An
    [OtherInstruction] so called that carries the attributes the handler
    reads is outside the model: Python would run the handler on it. *)
Definition _do_apicall (instruction : Instruction) : M unit :=
  match instruction with
  | APICall method_name params output_var =>
      final_kwargs <~ _resolve_variables instruction ;;
      method <~ lift (match client_method method_name with
                      | Some m => Ok m
                      | None => Err AttributeError
                      end) ;;
      result <~ call method final_kwargs ;;
      match output_var with
      | Some name => l <~ new_object result ;; setitem name l
      | None => ret tt
      end
  | _ => raise AttributeError
  end.

Definition _do_copyvariable (instruction : Instruction) : M unit :=
  match instruction with
  | CopyVariable from_var to_var =>
      l <~ lookup_object from_var ;;
      setitem to_var l
  | _ => raise AttributeError
  end.

Definition _do_storevalue (instruction : Instruction) : M unit :=
  match instruction with
  | StoreValue name value =>
      result <~ resolve_object value ;;
      setitem name result
  | _ => raise AttributeError
  end.

Definition _add_to_deployed_values (payload : list (string * Value)) : M unit :=
  match Dict.get payload "name" with
  | None => raise (KeyError (VStr "name"))
  | Some key =>
      if hashable key then
        fun st =>
          match index_get (_resource_value_index st) key with
          | None =>
              let l := length (records st) in
              (Ok tt,
               with_resource_values (resource_values st ++ [l])
                 (with_index (_resource_value_index st ++ [(key, l)])
                    (with_records (records st ++ [payload]) st)))
          | Some l =>
              (Ok tt,
               with_records
                 (<[l := Dict.update (record_at st l) payload]> (records st)) st)
          end
      else raise TypeError
  end.

Definition _do_recordresourcevariable (instruction : Instruction) : M unit :=
  match instruction with
  | RecordResourceVariable resource_name resource_type name variable_name =>
      v <~ lookup_value variable_name ;;
      _add_to_deployed_values (record_payload resource_name resource_type name v)
  | _ => raise AttributeError
  end.

Definition _do_recordresourcevalue (instruction : Instruction) : M unit :=
  match instruction with
  | RecordResourceValue resource_name resource_type name value =>
      _add_to_deployed_values (record_payload resource_name resource_type name value)
  | _ => raise AttributeError
  end.

Definition _do_jpsearch (instruction : Instruction) : M unit :=
  match instruction with
  | JPSearch input_var expression output_var =>
      v <~ lookup_value input_var ;;
      result <~ lift (jmespath_search expression v) ;;
      l <~ new_object result ;;
      setitem output_var l
  | _ => raise AttributeError
  end.

Definition _do_builtinfunction (instruction : Instruction) : M unit :=
  match instruction with
  | BuiltinFunction function_name args output_var =>
      if String.eqb function_name "parse_arn" then
        resolved_args <~ resolve args ;;
        value <~ lift (subscript0 resolved_args) ;;
        parts <~ lift (split_colon value) ;;
        service <~ lift (part parts 2) ;;
        region <~ lift (part parts 3) ;;
        account_id <~ lift (part parts 4) ;;
        l <~ new_object (VDict [("service", VStr service);
                                ("region", VStr region);
                                ("account_id", VStr account_id)]) ;;
        setitem output_var l
      else
        raise (ValueError ("Unknown builtin function: " +:+ function_name))
  | _ => raise AttributeError
  end.

(** [getattr(self, name, None)] for the handler names of [Executor]. *)
Definition executor_getattr (name : string) : option (Instruction -> M unit) :=
  if String.eqb name "_do_apicall" then Some _do_apicall
  else if String.eqb name "_do_copyvariable" then Some _do_copyvariable
  else if String.eqb name "_do_storevalue" then Some _do_storevalue
  else if String.eqb name "_do_recordresourcevariable" then Some _do_recordresourcevariable
  else if String.eqb name "_do_recordresourcevalue" then Some _do_recordresourcevalue
  else if String.eqb name "_do_jpsearch" then Some _do_jpsearch
  else if String.eqb name "_do_builtinfunction" then Some _do_builtinfunction
  else None.

(** One turn of the loop of [execute], for the instruction at [pos]. *)
Definition step (messages : gmap nat string) (pos : nat)
    (instruction : Instruction) : M unit :=
  match messages !! pos with
   | Some message => ui_write message
   | None => ret tt
   end ;;;
  default _default_handler
    (executor_getattr ("_do_" +:+ lower (class_name instruction))) instruction.

Fixpoint execute_from (messages : gmap nat string) (pos : nat)
    (instrs : list Instruction) : M unit :=
  match instrs with
  | [] => ret tt
  | instruction :: rest =>
      step messages pos instruction ;;;
      execute_from messages (S pos) rest
  end.

Definition execute (plan : Plan) : M unit :=
  execute_from (messages plan) 0 (instructions plan).

(** In-place mutation of the object at [l], as any holder of a reference
    to it can perform ([append], [update], item assignment).  The executor
    itself never does this to an object of the store. *)
Definition mutate_object (l : nat) (v : Value) (st : Executor) : Executor :=
  with_objects (<[l := v]> (objects st)) st.
End Executor.

Arguments Executor : clear implicits.
Arguments M : clear implicits.

(** ** DisplayOnlyExecutor *)

(** [bool(value)]: the planner's objects and the members of an enumeration
    are true. *)
Definition truthy (v : Value) : bool :=
  match v with
  | VNone => false
  | VBool b => b
  | VInt n => negb (Z.eqb n 0)
  | VStr s => negb (String.eqb s EmptyString)
  | VBytes b => negb (Nat.eqb (length b) 0)
  | VList items => negb (Nat.eqb (length items) 0)
  | VDict items => negb (Nat.eqb (length items) 0)
  | _ => true
  end.

(** [isinstance(value, (dict, list))] *)
Definition is_collection (v : Value) : bool :=
  match v with
  | VList _ | VDict _ => true
  | _ => false
  end.

(** [attr.asdict(instruction)]: the attributes in the order in which the
    data model of the spec lists them. *)
Definition asdict (i : Instruction) : list (string * Value) :=
  let opt o := match o with Some x => VStr x | None => VNone end in
  match i with
  | APICall method_name params output_var =>
      [("method_name", VStr method_name); ("params", params);
       ("output_var", opt output_var)]
  | CopyVariable from_var to_var =>
      [("from_var", VStr from_var); ("to_var", VStr to_var)]
  | StoreValue name value => [("name", VStr name); ("value", value)]
  | RecordResourceVariable resource_name resource_type name variable_name =>
      [("resource_name", VStr resource_name); ("resource_type", VStr resource_type);
       ("name", VStr name); ("variable_name", VStr variable_name)]
  | RecordResourceValue resource_name resource_type name value =>
      [("resource_name", VStr resource_name); ("resource_type", VStr resource_type);
       ("name", VStr name); ("value", value)]
  | JPSearch input_var expression output_var =>
      [("input_var", VStr input_var); ("expression", VStr expression);
       ("output_var", VStr output_var)]
  | BuiltinFunction function_name args output_var =>
      [("function_name", VStr function_name); ("args", args);
       ("output_var", VStr output_var)]
  | OtherInstruction _ fields => fields
  end.

Module DisplayOnlyExecutor.

Definition _MAX_BYTE_LENGTH : nat := 30.
(** U+2502, in UTF-8. *)
Definition _LINE_VERTICAL : string :=
  String (ascii_of_nat 226) (String (ascii_of_nat 148)
    (String (ascii_of_nat 130) EmptyString)).

(** [re.sub('(.)([A-Z][a-z]+)', r'\1_\2', v)], scanning left to right:
    [FirstUpper] stands before the capital of a match, [FirstLower] inside
    its run of small letters. *)
Inductive scan := Scan | FirstUpper | FirstLower.

Fixpoint first_cap (mode : scan) (v : string) : string :=
  match v with
  | EmptyString => EmptyString
  | String c rest =>
      match mode with
      | FirstUpper => String "_" (String c (first_cap FirstLower rest))
      | _ =>
          if match mode with FirstLower => is_lower c | _ => false end
          then String c (first_cap FirstLower rest)
          else
            match rest with
            | String u (String l _) =>
                if negb (Ascii.eqb c (ascii_of_nat 10)) && is_upper u && is_lower l
                then String c (first_cap FirstUpper rest)
                else String c (first_cap Scan rest)
            | _ => String c (first_cap Scan rest)
            end
      end
  end.

(** [re.sub('([a-z0-9])([A-Z])', r'\1_\2', v)]: the capital a match has
    consumed cannot start the next one. *)
Fixpoint end_cap (v : string) : string :=
  match v with
  | EmptyString => EmptyString
  | String c rest =>
      match rest with
      | String u _ =>
          if (is_lower c || is_digit c) && is_upper u
          then String c (String "_" (end_cap rest))
          else String c (end_cap rest)
      | EmptyString => String c EmptyString
      end
  end.

Definition _upper_snake_case (v : string) : string :=
  upper (end_cap (first_cap Scan v)).

Section Rendering.
(** ['%s' % value] for a value that is not a string, and
    [pprint.pformat(value)], of the Python library. *)
Variable py_str : Value -> string.
Variable pformat : Value -> string.

Definition str_of (v : Value) : string :=
  match v with
  | VStr s => s
  | _ => py_str v
  end.

Definition is_long_bytes (v : Value) : bool :=
  match v with
  | VBytes b => (_MAX_BYTE_LENGTH <? length b)%nat
  | _ => false
  end.

(** ['${%s_%s}' % (key.upper(), len(spillover_values))] *)
Definition spillover_name (key : string) (n : nat) : string :=
  "${" +:+ upper key +:+ "_" +:+ decimal n +:+ "}".

Definition dict_line (key : string) (value : Value) : string :=
  ljust 31 " " +:+ _LINE_VERTICAL +:+ ljust 15 " " +:+ _LINE_VERTICAL
    +:+ rjust 20 (key +:+ ":") +:+ " " +:+ ljust 10 (str_of value).

(** The loop of [_format_dict]: the lines so far and the spill-over
    dict, which the loop mutates. *)
Fixpoint format_entries (items : list (string * Value)) (lines : list string)
    (spillover_values : list (string * Value))
    : list string * list (string * Value) :=
  match items with
  | [] => (lines, spillover_values)
  | (key, value) :: rest =>
      if negb (truthy value) then format_entries rest lines spillover_values
      else
        let value := if is_long_bytes value then VStr "<bytes>" else value in
        if is_collection value then
          let name := spillover_name key (length spillover_values) in
          format_entries rest (lines ++ [dict_line key (VStr name)])
            (Dict.set spillover_values name value)
        else
          format_entries rest (lines ++ [dict_line key value]) spillover_values
  end.

Definition _format_dict (dict_value : list (string * Value))
    (spillover_values : list (string * Value))
    : string * list (string * Value) :=
  let (lines, spillover_values) :=
    format_entries dict_value [EmptyString] spillover_values in
  (join newline lines, spillover_values).

Definition instruction_line (instruction_name key value : string) : string :=
  ljust 30 instruction_name +:+ " " +:+ _LINE_VERTICAL
    +:+ rjust 20 (key +:+ ":") +:+ " " +:+ ljust 10 value.

(** The loop of [_default_handler]: [ui] is what has been written. *)
Fixpoint write_fields (instruction_name : string) (fields : list (string * Value))
    (ui : list string) (spillover_values : list (string * Value))
    : list string * list (string * Value) :=
  match fields with
  | [] => (ui, spillover_values)
  | (key, value) :: rest =>
      let (cell, spillover_values) :=
        match value with
        | VDict d => _format_dict d spillover_values
        | _ => (str_of value, spillover_values)
        end in
      write_fields EmptyString rest
        (ui ++ [instruction_line instruction_name key cell +:+ newline])
        spillover_values
  end.

Definition _default_handler (instruction : Instruction)
    (ui : list string) (spillover_values : list (string * Value))
    : list string * list (string * Value) :=
  let (ui, spillover_values) :=
    write_fields (_upper_snake_case (class_name instruction))
      (asdict instruction) ui spillover_values in
  (ui ++ [newline], spillover_values).

Definition _write_spillover (spillover_values : list (string * Value))
    (ui : list string) : list string :=
  if negb (truthy (VDict spillover_values)) then ui
  else
    fold_left
      (fun ui kv => ui ++ [fst kv +:+ ":" +:+ newline;
                           pformat (snd kv) +:+ newline +:+ newline])
      spillover_values
      (ui ++ ["Variable Pool" +:+ newline;
              "=============" +:+ newline +:+ newline]).

(** [getattr(self, name, None)] for a handler name: neither
    [DisplayOnlyExecutor] nor [BaseExecutor] defines a [_do_] method. *)
Definition display_getattr (name : string)
    : option (Instruction -> list string -> list (string * Value)
              -> list string * list (string * Value)) :=
  None.

Fixpoint execute_all (instrs : list Instruction) (ui : list string)
    (spillover_values : list (string * Value))
    : list string * list (string * Value) :=
  match instrs with
  | [] => (ui, spillover_values)
  | instruction :: rest =>
      let (ui, spillover_values) :=
        default _default_handler
          (display_getattr ("_do_" +:+ lower (class_name instruction)))
          instruction ui spillover_values in
      execute_all rest ui spillover_values
  end.

(** [execute(plan)]: what is written to the UI, after [ui]. *)
Definition execute (plan : Plan) (ui : list string) : list string :=
  let (ui, spillover_values) :=
    execute_all (instructions plan)
      (ui ++ ["Plan" +:+ newline; "====" +:+ newline +:+ newline]) [] in
  _write_spillover spillover_values ui.
End Rendering.
End DisplayOnlyExecutor.

(** ** Stand-ins for the Python library, for the examples *)

Inductive format_state :=
| Text
| AfterOpen
| Field (name : string)
| AfterClose.

(** A fragment of [str.format] with keyword arguments: replacement fields
    [{name}] bound to strings, and the escapes of the two braces.  The
    properties below hold for any formatting function; this one instantiates
    them. *)
Fixpoint format_named (st : format_state) (template : string)
    (kwargs : list (string * Value)) : result string :=
  match template with
  | EmptyString =>
      match st with
      | Text => Ok EmptyString
      | _ => Err (ValueError "Single brace encountered in format string")
      end
  | String c rest =>
      match st with
      | Text =>
          if Ascii.eqb c "{" then format_named AfterOpen rest kwargs
          else if Ascii.eqb c "}" then format_named AfterClose rest kwargs
          else s <- format_named Text rest kwargs ;; Ok (String c s)
      | AfterOpen =>
          if Ascii.eqb c "{" then s <- format_named Text rest kwargs ;; Ok (String c s)
          else if Ascii.eqb c "}" then Err IndexError
          else format_named (Field (String c EmptyString)) rest kwargs
      | Field name =>
          if Ascii.eqb c "}" then
            match Dict.get kwargs name with
            | Some (VStr v) => s <- format_named Text rest kwargs ;; Ok (v +:+ s)
            | Some _ => Err (ExternalError "format: argument is not a string")
            | None => Err (KeyError (VStr name))
            end
          else format_named (Field (name +:+ String c EmptyString)) rest kwargs
      | AfterClose =>
          if Ascii.eqb c "}" then s <- format_named Text rest kwargs ;; Ok (String c s)
          else Err (ValueError "Single brace encountered in format string")
      end
  end%result.

Definition str_format_fragment (template : string) (kwargs : list (string * Value))
    : result string :=
  format_named Text template kwargs.

(** [str(value)] on [None], the booleans and the integers; any other value
    prints as a mark. *)
Definition str_fragment (v : Value) : string :=
  match v with
  | VNone => "None"
  | VBool true => "True"
  | VBool false => "False"
  | VInt n => NilZero.string_of_int (Z.to_int n)
  | VStr s => s
  | _ => "<object>"
  end.

(** A client with one method, [get_role], which returns the role's
    description and counts its calls; and [jmespath.search] for the
    expressions [@] and a single key. *)
Definition client_fragment (name : string)
    : option (list (string * Value) -> nat -> result Value * nat) :=
  if String.eqb name "get_role" then
    Some (fun kwargs calls =>
            (Ok (VDict [("Arn", VStr "arn:aws:iam::123456789012:role/app")]), S calls))
  else None.

Definition jmespath_fragment (expression : string) (v : Value) : result Value :=
  if String.eqb expression "@" then Ok v
  else match v with
       | VDict d => Ok (default VNone (Dict.get d expression))
       | _ => Ok VNone
       end.

(** ** Specifications in the words of the design *)

Definition is_ok {A} (r : result A) : bool :=
  match r with
  | Ok _ => true
  | Err _ => false
  end.

Definition first_some {A B} (f : A -> option B) : list A -> option B :=
  fix go l :=
    match l with
    | [] => None
    | x :: rest =>
        match f x with
        | Some y => Some y
        | None => go rest
        end
    end.

(** The first placeholder of a value, in the order the resolver visits it. *)
Fixpoint first_placeholder (v : Value) : option Placeholder :=
  match v with
  | VPlaceholder p => Some p
  | VList items => first_some first_placeholder items
  | VDict items => first_some (fun kv => first_placeholder (snd kv)) items
  | _ => None
  end.

Section ResolverSpec.
Variable str_format : string -> list (string * Value) -> result string.

(** Every [Variable] and [StringFormat] in the value can be resolved. *)
Fixpoint refs_resolve (variables : gmap string Value) (v : Value) : bool :=
  match v with
  | VVariable name => bool_decide (is_Some (variables !! name))
  | VStringFormat _ _ => is_ok (resolve_variables str_format v variables)
  | VList items => forallb (refs_resolve variables) items
  | VDict items => forallb (fun kv => refs_resolve variables (snd kv)) items
  | _ => true
  end.

(** Every reference in the value can be resolved and no placeholder
    occurs in it. *)
Fixpoint resolvable (variables : gmap string Value) (v : Value) : bool :=
  match v with
  | VVariable name => bool_decide (is_Some (variables !! name))
  | VStringFormat _ _ => is_ok (resolve_variables str_format v variables)
  | VPlaceholder _ => false
  | VList items => forallb (resolvable variables) items
  | VDict items => forallb (fun kv => resolvable variables (snd kv)) items
  | _ => true
  end.

(** The container with the same keys and the same order of elements, in
    which a [Variable] is replaced by the store's value, a [StringFormat]
    by its formatted string, and any other leaf is unchanged. *)
Fixpoint substitute (variables : gmap string Value) (v : Value) : Value :=
  match v with
  | VVariable name => default v (variables !! name)
  | VStringFormat _ _ =>
      match resolve_variables str_format v variables with
      | Ok r => r
      | Err _ => v
      end
  | VList items => VList (map (substitute variables) items)
  | VDict items => VDict (map (fun kv => (fst kv, substitute variables (snd kv))) items)
  | _ => v
  end.
End ResolverSpec.

(** The merge rule of the resource records, on payloads paired with the
    resource name they are recorded under: a payload for a name that has a
    record is merged into it, one for a new name is added last. *)
Fixpoint merge_into (named : list (string * list (string * Value)))
    (n : string) (payload : list (string * Value))
    : list (string * list (string * Value)) :=
  match named with
  | [] => [(n, payload)]
  | (n', r) :: rest =>
      if String.eqb n' n then (n', Dict.update r payload) :: rest
      else (n', r) :: merge_into rest n payload
  end.

Definition merged (payloads : list (string * list (string * Value)))
    : list (string * list (string * Value)) :=
  fold_left (fun acc np => merge_into acc (fst np) (snd np)) payloads [].

(** The names of a list, each once, in the order they first occur. *)
Definition first_seen (names : list string) : list string :=
  fold_left (fun acc n => if bool_decide (n ∈ acc) then acc else acc ++ [n]) names [].

(** The value the last payload recorded for [n] that has attribute [a]
    gives it. *)
Definition last_written (payloads : list (string * list (string * Value)))
    (n a : string) : option Value :=
  fold_left
    (fun acc np =>
       if String.eqb (fst np) n then
         match Dict.get (snd np) a with
         | Some v => Some v
         | None => acc
         end
       else acc)
    payloads None.

(** What a record instruction records, given the store: the resource name
    and the payload. *)
Definition recorded (variables : gmap string Value) (i : Instruction)
    : option (string * list (string * Value)) :=
  match i with
  | RecordResourceValue resource_name resource_type name value =>
      Some (resource_name, record_payload resource_name resource_type name value)
  | RecordResourceVariable resource_name resource_type name variable_name =>
      match variables !! variable_name with
      | Some v => Some (resource_name, record_payload resource_name resource_type name v)
      | None => None
      end
  | _ => None
  end.

(** A record instruction whose attribute is not called [name]. *)
Definition records_attribute (i : Instruction) : bool :=
  match i with
  | RecordResourceValue _ _ name _ | RecordResourceVariable _ _ name _ =>
      negb (String.eqb name "name")
  | _ => false
  end.

(** What [_format_dict] shows for the entries of a dict, when the pool
    holds [n] values: nothing for a false value, the mark [<bytes>] for
    bytes beyond the limit, a name made from the key and the count for a
    list or dict, and the value itself otherwise. *)
Fixpoint cells (items : list (string * Value)) (n : nat) : list (string * Value) :=
  match items with
  | [] => []
  | (key, value) :: rest =>
      if negb (truthy value) then cells rest n
      else if DisplayOnlyExecutor.is_long_bytes value then
        (key, VStr "<bytes>") :: cells rest n
      else if is_collection value then
        (key, VStr (DisplayOnlyExecutor.spillover_name key n)) :: cells rest (S n)
      else (key, value) :: cells rest n
  end.

(** What it adds to the pool: the lists and dicts that are not empty, each
    under the name shown in its place. *)
Fixpoint spilled (items : list (string * Value)) (n : nat) : list (string * Value) :=
  match items with
  | [] => []
  | (key, value) :: rest =>
      if truthy value && is_collection value then
        (DisplayOnlyExecutor.spillover_name key n, value) :: spilled rest (S n)
      else spilled rest n
  end.

(** The names of a pool filled by [_format_dict]: the one at position [i]
    was made with the count [i]. *)
Definition pool_names (pool : list (string * Value)) : Prop :=
  forall i k v, pool !! i = Some (k, v) ->
                exists key, k = DisplayOnlyExecutor.spillover_name key i.

Fixpoint no_underscore (s : string) : Prop :=
  match s with
  | EmptyString => True
  | String c rest => c <> "_"%char /\ no_underscore rest
  end.

(** A method that leaves the objects of the store as they are, or adds
    new ones after them. *)
Definition grows {C A} (m : M C A) : Prop :=
  forall st, objects st `prefix_of` objects (snd (m st)).

(** How the executor holds the records [named]: the payload dicts in the
    order of their first recording, addressed in that order by the index,
    under their names, and by [resource_values]. *)
Definition holds_records {C} (st : Executor C)
    (named : list (string * list (string * Value))) : Prop :=
  records st = map snd named
  /\ _resource_value_index st
     = zip (map (fun nr => VStr (fst nr)) named) (seq 0 (length named))
  /\ resource_values st = seq 0 (length named).

Definition plain_wf (v : Value) : Prop := plain v = true /\ wf_value v = true.

(** The store holds plain, well-formed data only. *)
Definition plain_store (variables : gmap string Value) : bool :=
  forallb (fun kv => plain (snd kv) && wf_value (snd kv)) (map_to_list variables).

(** An executor for the examples: ["a"] and ["arn"] are bound. *)
Definition example_store : Executor nat :=
  with_variables (<["a" := 0]> (<["arn" := 1]> ∅))
    (with_objects
       [VList [VInt 1];
        VStr "arn:aws:lambda:us-west-2:123456789012:function:foo"]
       (new_executor 0)).


(** ** Further specifications *)

(** The names a value refers to, and the placeholders in it. *)
Fixpoint names_of (v : Value) : list string :=
  match v with
  | VVariable name => [name]
  | VStringFormat _ names => names
  | VList items => concat (map names_of items)
  | VDict items => concat (map (fun kv => names_of (snd kv)) items)
  | _ => []
  end.

Fixpoint placeholders_of (v : Value) : list Placeholder :=
  match v with
  | VPlaceholder p => [p]
  | VList items => concat (map placeholders_of items)
  | VDict items => concat (map (fun kv => placeholders_of (snd kv)) items)
  | _ => []
  end.

(** A method after which the executor is related by [R] to what it was. *)
Definition preserves {C A} (R : Executor C -> Executor C -> Prop) (m : M C A) : Prop :=
  forall st, R st (snd (m st)).

(** What a method can leave alone: the resource records, the client, what
    was written to the UI, the variable store. *)
Definition same_records {C} (st st' : Executor C) : Prop :=
  records st' = records st
  /\ _resource_value_index st' = _resource_value_index st
  /\ resource_values st' = resource_values st.

Definition same_client {C} (st st' : Executor C) : Prop := client st' = client st.

Definition same_ui {C} (st st' : Executor C) : Prop := ui st' = ui st.

Definition same_store {C} (st st' : Executor C) : Prop :=
  variables st' = variables st /\ objects st' = objects st.

(** Every name of the store is bound to an object that exists. *)
Definition store_ok {C} (st : Executor C) : Prop :=
  forall name l, variables st !! name = Some l -> l < length (objects st).

(** The store keeps its objects and its names, and stays sound. *)
Definition store_extends {C} (st st' : Executor C) : Prop :=
  objects st `prefix_of` objects st'
  /\ dom (variables st) ⊆ dom (variables st')
  /\ (store_ok st -> store_ok st').

(** The index and [resource_values] list the payload dicts, all of them,
    in the order in which they were added. *)
Definition records_ok {C} (st : Executor C) : Prop :=
  resource_values st = seq 0 (length (records st))
  /\ map snd (_resource_value_index st) = resource_values st.

(** Every entry of the index is the one a lookup of its key finds, and
    the payload dict it points to carries that key as its name (a key
    equal to it as Python compares keys). *)
Definition index_ok {C} (st : Executor C) : Prop :=
  forall key l,
    (key, l) ∈ _resource_value_index st ->
    index_get (_resource_value_index st) key = Some l
    /\ exists name, Dict.get (record_at st l) "name" = Some name
                    /\ key_eqb key name = true.



(** Nothing recorded is lost: the index and [resource_values] grow at
    their end only, a payload dict keeps its place, its keys in their
    order and the value of every attribute outside [written], and sound
    records stay sound. *)
Definition records_kept {C} (written : list string) (st st' : Executor C) : Prop :=
  _resource_value_index st `prefix_of` _resource_value_index st'
  /\ resource_values st `prefix_of` resource_values st'
  /\ length (records st) <= length (records st')
  /\ (forall l, l < length (records st) ->
        map fst (record_at st l) `prefix_of` map fst (record_at st' l)
        /\ forall k, k ∉ written ->
                     Dict.get (record_at st' l) k = Dict.get (record_at st l) k)
  /\ (records_ok st /\ index_ok st -> records_ok st' /\ index_ok st').

(** The two record instructions. *)
Definition is_record (i : Instruction) : bool :=
  match i with
  | RecordResourceVariable _ _ _ _ | RecordResourceValue _ _ _ _ => true
  | _ => false
  end.

(** The name of the method [execute] looks up for an instruction, and the
    instructions it hands to a record handler or to [_do_apicall]: those
    whose class is so called in lower case, whatever the class is. *)
Definition handler_name (i : Instruction) : string :=
  "_do_" +:+ lower (class_name i).

Definition reaches_record_handler (i : Instruction) : bool :=
  String.eqb (handler_name i) "_do_recordresourcevariable"
  || String.eqb (handler_name i) "_do_recordresourcevalue".

Definition reaches_apicall_handler (i : Instruction) : bool :=
  String.eqb (handler_name i) "_do_apicall".

(** The messages of the instructions at positions [pos], ..., [pos + n - 1],
    in that order. *)
Definition announced (messages : gmap nat string) (pos n : nat) : list string :=
  omap (fun p => messages !! p) (seq pos n).

(** A string without the occurrences of a character. *)
Fixpoint without (c : ascii) (s : string) : string :=
  match s with
  | EmptyString => EmptyString
  | String c' rest => if Ascii.eqb c' c then without c rest else String c' (without c rest)
  end.

Fixpoint occurs (c : ascii) (s : string) : bool :=
  match s with
  | EmptyString => false
  | String c' rest => Ascii.eqb c' c || occurs c rest
  end.

(** A method that only reads the executor. *)
Definition reads {C A} (m : M C A) : Prop := forall st, snd (m st) = st.


(** A client whose one method, [get_role], raises, counting the call; and a
    search that rejects every expression. *)
Definition client_failing (name : string)
    : option (list (string * Value) -> nat -> result Value * nat) :=
  if String.eqb name "get_role" then
    Some (fun kwargs calls => (Err (ExternalError "AccessDenied"), S calls))
  else None.

Definition jmespath_failing (expression : string) (v : Value) : result Value :=
  Err (ExternalError "ParseError").

(** Every [Variable] of the value names a bound variable; nothing is asked
    of a [StringFormat] or of a placeholder. *)
Fixpoint variables_present (variables : gmap string Value) (v : Value) : bool :=
  match v with
  | VVariable name => bool_decide (is_Some (variables !! name))
  | VList items => forallb (variables_present variables) items
  | VDict items => forallb (fun kv => variables_present variables (snd kv)) items
  | _ => true
  end.

(** The lines of an instruction on the display: one for each attribute, in
    the order of the attributes, the first one under the name of the
    instruction; then an empty line.  The cell of an attribute is the
    attribute as a string, or, for a dict, what [_format_dict] makes of
    it. *)
Fixpoint field_lines (instruction_name : string) (fields : list (string * Value))
    (cells : list string) : list string :=
  match fields, cells with
  | (key, _) :: fields, cell :: cells =>
      (DisplayOnlyExecutor.instruction_line instruction_name key cell +:+ newline)
        :: field_lines EmptyString fields cells
  | _, _ => []
  end.

Definition is_cell (py_str : Value -> string) (kv : string * Value) (cell : string)
    : Prop :=
  match snd kv with
  | VDict d => exists sp, cell = fst (DisplayOnlyExecutor._format_dict py_str d sp)
  | v => cell = DisplayOnlyExecutor.str_of py_str v
  end.

Definition is_block (py_str : Value -> string) (i : Instruction) (b : list string)
    : Prop :=
  exists cells,
    Forall2 (is_cell py_str) (asdict i) cells
    /\ b = field_lines (DisplayOnlyExecutor._upper_snake_case (class_name i))
             (asdict i) cells ++ [newline].
(** * Properties *)

(** ** Induction on values *)

Section ValueInduction.
Variable P : Value -> Prop.
Hypothesis HNone : P VNone.
Hypothesis HBool : forall b, P (VBool b).
Hypothesis HInt : forall n, P (VInt n).
Hypothesis HStr : forall s, P (VStr s).
Hypothesis HBytes : forall b, P (VBytes b).
Hypothesis HList : forall items, Forall P items -> P (VList items).
Hypothesis HDict : forall items, Forall (fun kv => P (snd kv)) items -> P (VDict items).
Hypothesis HVariable : forall name, P (VVariable name).
Hypothesis HStringFormat : forall t ns, P (VStringFormat t ns).
Hypothesis HPlaceholder : forall p, P (VPlaceholder p).

Lemma Value_nested_ind (v : Value) : P v.
Proof.
  revert v.
  exact (fix Value_nested_ind (v : Value) : P v :=
  match v with
  | VNone => HNone
  | VBool b => HBool b
  | VInt n => HInt n
  | VStr s => HStr s
  | VBytes b => HBytes b
  | VList items =>
      HList items
        ((fix all (l : list Value) : Forall P l :=
            match l with
            | [] => @List.Forall_nil _ _
            | x :: r => @List.Forall_cons _ _ x r (Value_nested_ind x) (all r)
            end) items)
  | VDict items =>
      HDict items
        ((fix all (l : list (string * Value)) : Forall (fun kv => P (snd kv)) l :=
            match l with
            | [] => @List.Forall_nil _ _
            | kv :: r => @List.Forall_cons _ _ kv r (Value_nested_ind (snd kv)) (all r)
            end) items)
  | VVariable name => HVariable name
  | VStringFormat t ns => HStringFormat t ns
  | VPlaceholder p => HPlaceholder p
  end).
Qed.
End ValueInduction.

(** ** Dictionaries *)

Lemma dict_get_set_eq {A} (d : list (string * A)) k v :
  Dict.get (Dict.set d k v) k = Some v.
Proof.
  induction d as [|[k' v'] d IH]; simpl.
  - by rewrite String.eqb_refl.
  - destruct (String.eqb k' k) eqn:E; simpl; rewrite E; [done | apply IH].
Qed.

Lemma dict_get_set_ne {A} (d : list (string * A)) k k' v :
  k <> k' -> Dict.get (Dict.set d k v) k' = Dict.get d k'.
Proof.
  intros Hne. induction d as [|[k0 v0] d IH]; simpl.
  - destruct (String.eqb k k') eqn:E; [apply String.eqb_eq in E; done | done].
  - destruct (String.eqb k0 k) eqn:E; simpl.
    + apply String.eqb_eq in E. subst k0.
      destruct (String.eqb k k') eqn:E'; [apply String.eqb_eq in E'; done | done].
    + by rewrite IH.
Qed.

Lemma dict_set_fresh {A} (d : list (string * A)) k v :
  k ∉ map fst d -> Dict.set d k v = d ++ [(k, v)].
Proof.
  induction d as [|[k' v'] d IH]; simpl; intros Hk; [done|].
  apply not_elem_of_cons in Hk as [Hne Hk].
  destruct (String.eqb k' k) eqn:E.
  - apply String.eqb_eq in E. congruence.
  - by rewrite IH.
Qed.

Lemma dict_set_keys {A} (d : list (string * A)) k v :
  map fst (Dict.set d k v) = if bool_decide (k ∈ map fst d) then map fst d
                             else map fst d ++ [k].
Proof.
  induction d as [|[k' v'] d IH]; simpl; [done|].
  destruct (String.eqb k' k) eqn:E.
  - apply String.eqb_eq in E. subst. simpl.
    rewrite bool_decide_eq_true_2; [done | set_solver].
  - simpl. rewrite IH. apply String.eqb_neq in E.
    destruct (bool_decide (k ∈ map fst d)) eqn:B.
    + apply bool_decide_eq_true_1 in B. rewrite bool_decide_eq_true_2; [done|set_solver].
    + apply bool_decide_eq_false_1 in B. rewrite bool_decide_eq_false_2; [done|set_solver].
Qed.

Lemma dict_set_NoDup {A} (d : list (string * A)) k v :
  NoDup (map fst d) -> NoDup (map fst (Dict.set d k v)).
Proof.
  intros Hd. rewrite dict_set_keys. case_bool_decide; [done|].
  apply NoDup_app. split_and!; [done | | apply NoDup_singleton].
  intros x Hx Hx'. apply list_elem_of_singleton in Hx'. by subst.
Qed.

Lemma dict_set_Forall {A} (P : A -> Prop) (d : list (string * A)) k v :
  Forall (fun kv => P (snd kv)) d -> P v -> Forall (fun kv => P (snd kv)) (Dict.set d k v).
Proof.
  intros Hd Hv. induction Hd as [|[k' v'] d Hx Hd IH]; simpl.
  - by constructor.
  - destruct (String.eqb k' k); constructor; done.
Qed.

Lemma fold_set_fresh {A B} (f : B -> A) (items : list (string * B))
    (final : list (string * A)) :
  NoDup (map fst final ++ map fst items) ->
  fold_left (fun acc kv => Dict.set acc (fst kv) (f (snd kv))) items final
  = final ++ map (fun kv => (fst kv, f (snd kv))) items.
Proof.
  revert final. induction items as [|[k v] items IH]; intros final Hnd; simpl.
  - by rewrite app_nil_r.
  - simpl in Hnd. apply NoDup_app in Hnd as (Hf & Hdisj & Hi).
    apply NoDup_cons in Hi as [Hk Hi].
    rewrite dict_set_fresh by (intros Hin; apply (Hdisj k Hin); left).
    rewrite IH.
    + by rewrite <- app_assoc.
    + rewrite map_app. simpl. apply NoDup_app. split_and!; [|  | done].
      * apply NoDup_app. split_and!; [done | | apply NoDup_singleton].
        intros x Hx Hx'. apply list_elem_of_singleton in Hx'. subst.
        apply (Hdisj k Hx). left.
      * intros x Hx Hx'. apply elem_of_app in Hx as [Hx|Hx].
        -- apply (Hdisj x Hx). by right.
        -- apply list_elem_of_singleton in Hx. by subst.
Qed.

(** ** The resolver's loops *)

Lemma resolve_items_map rec (f : Value -> Value) items final :
  Forall (fun kv => rec (snd kv) = Ok (f (snd kv))) items ->
  resolve_items rec items final
  = Ok (VDict (fold_left (fun acc kv => Dict.set acc (fst kv) (f (snd kv))) items final)).
Proof.
  intros H. revert final. induction H as [|[k v] items Hx _ IH]; intros final; simpl.
  - done.
  - simpl in Hx. by rewrite Hx, IH.
Qed.

Lemma resolve_elements_map rec (f : Value -> Value) items final_list :
  Forall (fun v => rec v = Ok (f v)) items ->
  resolve_elements rec items final_list = Ok (VList (final_list ++ map f items)).
Proof.
  intros H. revert final_list. induction H as [|v items Hx _ IH]; intros acc; simpl.
  - by rewrite app_nil_r.
  - by rewrite Hx, IH, <- app_assoc.
Qed.

Lemma forallb_Forall_iff {A} (p : A -> bool) (l : list A) :
  forallb p l = true <-> Forall (fun x => p x = true) l.
Proof.
  induction l as [|x l IH]; simpl.
  - split; [constructor | done].
  - rewrite andb_true_iff, IH, Forall_cons. done.
Qed.

(** ** C3: resolution substitutes and keeps the structure *)

Lemma resolve_elements_ok rec items final_list :
  is_ok (resolve_elements rec items final_list) = true ->
  Forall (fun v => is_ok (rec v) = true) items.
Proof.
  revert final_list. induction items as [|v items IH]; intros acc; simpl; [constructor|].
  destruct (rec v) eqn:E; [|done]. intros H. constructor; [by rewrite E | by eapply IH].
Qed.

Lemma resolve_items_ok rec items final :
  is_ok (resolve_items rec items final) = true ->
  Forall (fun kv => is_ok (rec (snd kv)) = true) items.
Proof.
  revert final. induction items as [|[k v] items IH]; intros acc; simpl; [constructor|].
  destruct (rec v) eqn:E; [|done]. intros H.
  constructor; [simpl; by rewrite E | by eapply IH].
Qed.

(** Resolution succeeds only on a value whose references resolve and
    that holds no placeholder. *)
Lemma resolve_variables_ok_resolvable str_format variables v :
  is_ok (resolve_variables str_format v variables) = true ->
  resolvable str_format variables v = true.
Proof.
  induction v as [ | | | | |items IH|items IH|name|t ns|p]
    using Value_nested_ind; intros Hok; try done.
  - simpl in *. apply resolve_elements_ok in Hok. apply forallb_Forall_iff.
    induction IH as [|x l Hx _ IHl]; [constructor|].
    apply Forall_cons in Hok as [? ?]. constructor; auto.
  - simpl in *. apply resolve_items_ok in Hok. apply forallb_Forall_iff.
    induction IH as [|x l Hx _ IHl]; [constructor|].
    apply Forall_cons in Hok as [? ?]. constructor; auto.
  - simpl in *. unfold getitem in Hok. apply bool_decide_eq_true_2.
    by destruct (variables !! name).
Qed.

Lemma resolve_variables_resolvable str_format (variables : gmap string Value)
    (value : Value) :
  wf_value value = true ->
  resolvable str_format variables value = true ->
  resolve_variables str_format value variables
  = Ok (substitute str_format variables value).
Proof.
  induction value as [ | | | | |items IH|items IH|name|t ns|p]
    using Value_nested_ind; intros Hwf Hres; try done.
  - (* list *)
    simpl in *. rewrite (resolve_elements_map _ (substitute str_format variables)).
    + done.
    + apply forallb_Forall_iff in Hwf, Hres.
      induction IH as [|x l Hx _ IHl]; [constructor|].
      apply Forall_cons in Hwf as [? ?]. apply Forall_cons in Hres as [? ?].
      constructor; auto.
  - (* dict *)
    simpl in *. apply andb_true_iff in Hwf as [Hnd Hwf].
    apply bool_decide_eq_true_1 in Hnd.
    rewrite (resolve_items_map _ (substitute str_format variables)).
    + by rewrite fold_set_fresh.
    + apply forallb_Forall_iff in Hwf, Hres. clear Hnd.
      induction IH as [|x l Hx _ IHl]; [constructor|].
      apply Forall_cons in Hwf as [? ?]. apply Forall_cons in Hres as [? ?].
      constructor; auto.
  - (* Variable *)
    simpl in *. apply bool_decide_eq_true_1 in Hres as [v Hv].
    unfold getitem. by rewrite Hv.
  - (* StringFormat *)
    simpl in *. destruct (lookup_all variables ns []); [|done].
    destruct (str_format t a); done.
Qed.

(** C3 (amended).  For a well-formed value in which every [Variable]
    names a bound variable, every [StringFormat] can be formatted and no
    placeholder occurs, [resolve_variables] returns the container with the
    same keys in the same order and the same elements in the same order,
    each [Variable] replaced by the store's current value and every other
    scalar leaf unchanged: the value [substitute] describes.  For any
    other value it raises; so whenever resolution returns, it returns that
    value. *)
Theorem resolve_variables_substitutes str_format (variables : gmap string Value)
    (value : Value) :
  wf_value value = true ->
  (resolvable str_format variables value = true ->
   resolve_variables str_format value variables
   = Ok (substitute str_format variables value))
  /\ (resolvable str_format variables value = false ->
      exists e, resolve_variables str_format value variables = Err e)
  /\ (forall r, resolve_variables str_format value variables = Ok r ->
                r = substitute str_format variables value).
Proof.
  intros Hwf. split_and!.
  - by apply resolve_variables_resolvable.
  - intros Hres.
    destruct (resolve_variables str_format value variables) as [r|e] eqn:Hr;
      [|by exists e].
    assert (H : resolvable str_format variables value = true).
    { apply resolve_variables_ok_resolvable. by rewrite Hr. }
    congruence.
  - intros r Hr.
    assert (Hres : resolvable str_format variables value = true).
    { apply resolve_variables_ok_resolvable. by rewrite Hr. }
    rewrite (resolve_variables_resolvable _ _ _ Hwf Hres) in Hr. by injection Hr.
Qed.

(** C3, as stated, fails: that every [Variable] of the value is bound does
    not make the value resolve, since it may hold a placeholder (or a
    [StringFormat] that cannot be formatted). *)
Lemma resolve_variables_substitutes_counterexample :
  let variables : gmap string Value := <["x" := VInt 1]> ∅ in
  let value := VDict [("a", VVariable "x");
                      ("b", VPlaceholder (PlaceholderMember "BUILD_STAGE"))] in
  wf_value value = true
  /\ variables_present variables value = true
  /\ resolve_variables str_format_fragment value variables
     = Err (UnresolvedValueError "b" (PlaceholderMember "BUILD_STAGE") "")
  /\ ~ (forall (v : Value) (s : gmap string Value),
          wf_value v = true -> variables_present s v = true ->
          resolve_variables str_format_fragment v s
          = Ok (substitute str_format_fragment s v)).
Proof.
  intros variables value.
  split_and!; [vm_compute; reflexivity | vm_compute; reflexivity
              | vm_compute; reflexivity |].
  intros H. specialize (H value variables).
  assert (Hwf : wf_value value = true) by (vm_compute; reflexivity).
  assert (Hp : variables_present variables value = true) by (vm_compute; reflexivity).
  specialize (H Hwf Hp). vm_compute in H. discriminate H.
Qed.

(** ** C7: resolving again *)

Lemma plain_store_lookup (variables : gmap string Value) name v :
  plain_store variables = true -> variables !! name = Some v ->
  plain v = true /\ wf_value v = true.
Proof.
  unfold plain_store. rewrite forallb_Forall_iff, Forall_forall.
  intros H Hv. apply elem_of_map_to_list in Hv.
  specialize (H (name, v) Hv). simpl in H. by apply andb_true_iff in H.
Qed.

Lemma plain_resolvable str_format variables v :
  plain v = true -> resolvable str_format variables v = true.
Proof.
  induction v as [ | | | | |items IH|items IH|name|t ns|p]
    using Value_nested_ind; simpl; try done.
  - rewrite !forallb_Forall_iff. intros H.
    induction IH as [|x l Hx _ IHl]; [constructor|].
    apply Forall_cons in H as [? ?]. constructor; auto.
  - rewrite !forallb_Forall_iff. intros H.
    induction IH as [|x l Hx _ IHl]; [constructor|].
    apply Forall_cons in H as [? ?]. constructor; auto.
Qed.

Lemma plain_substitute str_format variables v :
  plain v = true -> substitute str_format variables v = v.
Proof.
  induction v as [ | | | | |items IH|items IH|name|t ns|p]
    using Value_nested_ind; simpl; try done.
  - rewrite forallb_Forall_iff. intros H. f_equal.
    induction IH as [|x l Hx _ IHl]; [done|].
    apply Forall_cons in H as [? ?]. simpl. f_equal; auto.
  - rewrite forallb_Forall_iff. intros H. f_equal.
    induction IH as [|[k x] l Hx _ IHl]; [done|].
    apply Forall_cons in H as [? ?]. simpl in *. f_equal; [f_equal|]; auto.
Qed.

(** Plain data resolves to itself, against any store. *)
Lemma resolve_variables_plain str_format variables v :
  plain v = true -> wf_value v = true ->
  resolve_variables str_format v variables = Ok v.
Proof.
  intros Hp Hwf.
  rewrite resolve_variables_resolvable by auto using plain_resolvable.
  by rewrite plain_substitute.
Qed.

Lemma resolve_elements_inv (Q : Value -> Prop) rec items final_list r :
  Forall (fun v => forall r, rec v = Ok r -> Q r) items ->
  Forall Q final_list ->
  resolve_elements rec items final_list = Ok r ->
  exists l, r = VList l /\ Forall Q l.
Proof.
  intros H. revert final_list. induction H as [|v items Hv _ IH]; intros acc Hacc; simpl.
  - intros [= <-]. eauto.
  - destruct (rec v) as [r'|e] eqn:E; [|done]. apply IH.
    apply Forall_app. split; [done|]. constructor; [by apply Hv | constructor].
Qed.

Lemma resolve_items_inv (Q : Value -> Prop) rec items final r :
  Forall (fun kv => forall r, rec (snd kv) = Ok r -> Q r) items ->
  NoDup (map fst final) -> Forall (fun kv => Q (snd kv)) final ->
  resolve_items rec items final = Ok r ->
  exists d, r = VDict d /\ NoDup (map fst d) /\ Forall (fun kv => Q (snd kv)) d.
Proof.
  intros H. revert final. induction H as [|[k v] items Hv _ IH]; intros final Hnd Hf; simpl.
  - intros [= <-]. eauto.
  - destruct (rec v) as [r'|e] eqn:E; [|done]. apply IH.
    + by apply dict_set_NoDup.
    + apply dict_set_Forall; [done|]. by apply Hv.
Qed.

(** Against a store of plain data, whatever resolves resolves to plain,
    well-formed data. *)
Lemma resolve_variables_result_plain str_format variables v r :
  plain_store variables = true ->
  resolve_variables str_format v variables = Ok r -> plain_wf r.
Proof.
  intros Hs. revert r.
  induction v as [ | | | | |items IH|items IH|name|t ns|p]
    using Value_nested_ind; intros r; simpl;
    try (intros [= <-]; done).
  - intros H. apply (resolve_elements_inv plain_wf) in H as (l & -> & Hl);
      [|done|constructor].
    split; simpl; apply forallb_Forall_iff; eapply Forall_impl; try exact Hl;
      by intros ? [? ?].
  - intros H. apply (resolve_items_inv plain_wf) in H as (d & -> & Hnd & Hd);
      [|done|constructor|constructor].
    split; simpl.
    + apply forallb_Forall_iff. eapply Forall_impl; try exact Hd. by intros ? [? ?].
    + apply andb_true_iff. split; [by apply bool_decide_eq_true_2|].
      apply forallb_Forall_iff. eapply Forall_impl; try exact Hd. by intros ? [? ?].
  - unfold getitem. destruct (variables !! name) as [v|] eqn:E; [|done].
    intros [= <-]. by eapply plain_store_lookup.
  - destruct (lookup_all variables ns []); [|done].
    destruct (str_format t a); [|done]. intros [= <-]. done.
Qed.

(** C7 (amended).  Against a store whose values are plain data (no
    [Variable], [StringFormat] or placeholder inside), resolution is
    idempotent: when [value] resolves to [r], then [r] resolves, against the
    same store, to [r]. *)
Theorem resolve_variables_idempotent str_format (variables : gmap string Value)
    (value r : Value) :
  plain_store variables = true ->
  resolve_variables str_format value variables = Ok r ->
  resolve_variables str_format r variables = Ok r.
Proof.
  intros Hs Hr.
  destruct (resolve_variables_result_plain _ _ _ _ Hs Hr) as [Hp Hwf].
  by apply resolve_variables_plain.
Qed.

Lemma resolve_variables_idempotent_witness :
  let variables : gmap string Value :=
    <["role" := VDict [("arn", VStr "arn:aws:iam::1:role/r")]]> (<["n" := VStr "app"]> ∅) in
  let value := VDict [("Role", VVariable "role");
                      ("Name", VStringFormat "{n}-dev" ["n"]);
                      ("Tags", VList [VVariable "n"; VInt 3])] in
  let r := VDict [("Role", VDict [("arn", VStr "arn:aws:iam::1:role/r")]);
                  ("Name", VStr "app-dev");
                  ("Tags", VList [VStr "app"; VInt 3])] in
  resolve_variables str_format_fragment value variables = Ok r
  /\ resolve_variables str_format_fragment r variables = Ok r.
Proof.
  intros variables value r.
  assert (Hr : resolve_variables str_format_fragment value variables = Ok r)
    by (vm_compute; reflexivity).
  split; [exact Hr|].
  apply (resolve_variables_idempotent str_format_fragment variables value r);
    [vm_compute; reflexivity | exact Hr].
Defined.

(** C7, as stated, fails: the store may bind a name to a [Variable], and
    the resolver does not look inside what the store holds. *)
Lemma resolve_variables_idempotent_counterexample :
  let variables : gmap string Value := <["a" := VVariable "b"]> (<["b" := VStr "x"]> ∅) in
  resolve_variables str_format_fragment (VVariable "a") variables = Ok (VVariable "b")
  /\ resolve_variables str_format_fragment (VVariable "b") variables = Ok (VStr "x")
  /\ ~ (forall value (s : gmap string Value) r,
          resolve_variables str_format_fragment value s = Ok r ->
          resolve_variables str_format_fragment r s = Ok r).
Proof.
  intros variables. split_and!; [vm_compute; reflexivity | vm_compute; reflexivity |].
  intros H. specialize (H (VVariable "a") variables (VVariable "b")).
  assert (E : resolve_variables str_format_fragment (VVariable "a") variables
              = Ok (VVariable "b")) by (vm_compute; reflexivity).
  specialize (H E). vm_compute in H. discriminate H.
Qed.

Lemma resolve_variables_substitutes_witness :
  let variables : gmap string Value :=
    <["role" := VStr "arn:aws:iam::1:role/r"]> (<["layers" := VList [VStr "l1"]]> ∅) in
  let value := VDict [("FunctionName", VStr "app-dev");
                      ("Role", VVariable "role");
                      ("Config", VDict [("Layers", VVariable "layers");
                                        ("Memory", VInt 128)]);
                      ("Subnets", VList [VStr "s1"; VVariable "role"])] in
  resolve_variables str_format_fragment value variables
  = Ok (VDict [("FunctionName", VStr "app-dev");
               ("Role", VStr "arn:aws:iam::1:role/r");
               ("Config", VDict [("Layers", VList [VStr "l1"]);
                                 ("Memory", VInt 128)]);
               ("Subnets", VList [VStr "s1"; VStr "arn:aws:iam::1:role/r"])]).
Proof.
  intros variables value.
  rewrite (proj1 (resolve_variables_substitutes str_format_fragment variables value
                    eq_refl) eq_refl).
  vm_compute. reflexivity.
Defined.

(** ** C8: names that are not bound *)

Section UndefinedVariable.
Variable str_format : string -> list (string * Value) -> result string.

Lemma lookup_all_unbound (variables : gmap string Value) pre name post acc :
  Forall (fun n => is_Some (variables !! n)) pre ->
  variables !! name = None ->
  lookup_all variables (pre ++ name :: post) acc = Err (KeyError (VStr name)).
Proof.
  intros Hpre Hname. revert acc.
  induction Hpre as [|n pre [v Hn] _ IH]; intros acc; simpl.
  - unfold getitem. by rewrite Hname.
  - unfold getitem. rewrite Hn. apply IH.
Qed.

Lemma lookup_all_get (variables : gmap string Value) names acc kwargs :
  lookup_all variables names acc = Ok kwargs ->
  forall n, Dict.get kwargs n
            = if bool_decide (n ∈ names) then variables !! n else Dict.get acc n.
Proof.
  revert acc. induction names as [|m names IH]; intros acc; simpl.
  - intros [= <-] n. done.
  - unfold getitem. destruct (variables !! m) as [w|] eqn:Hm; [|done].
    intros H n. rewrite (IH _ H n).
    destruct (decide (n ∈ names)) as [Hin|Hnotin].
    + rewrite !bool_decide_eq_true_2; [done | by right | done].
    + rewrite (bool_decide_eq_false_2 _ Hnotin).
      destruct (decide (n = m)) as [->|Hne].
      * rewrite bool_decide_eq_true_2 by left. by rewrite dict_get_set_eq.
      * rewrite bool_decide_eq_false_2 by (by apply not_elem_of_cons).
        by rewrite dict_get_set_ne.
Qed.

Lemma lookup_all_bound (variables : gmap string Value) names acc :
  Forall (fun n => is_Some (variables !! n)) names ->
  exists kwargs, lookup_all variables names acc = Ok kwargs.
Proof.
  intros H. revert acc. induction H as [|n names [v Hn] _ IH]; intros acc; simpl.
  - by exists acc.
  - unfold getitem. rewrite Hn. apply IH.
Qed.
End UndefinedVariable.

(** ** C2: placeholders *)

Section Placeholders.
Variable str_format : string -> list (string * Value) -> result string.
Variable variables : gmap string Value.

Abbreviation rec := (fun v => resolve_variables str_format v variables).

Lemma resolve_items_app_ok items rest final :
  Forall (fun kv => is_ok (rec (snd kv)) = true) items ->
  exists final', resolve_items rec (items ++ rest) final
                 = resolve_items rec rest final'.
Proof.
  intros H. revert final. induction H as [|[k v] items Hv _ IH]; intros final; simpl.
  - by exists final.
  - simpl in Hv. destruct (resolve_variables str_format v variables); [|done].
    apply IH.
Qed.

(** A value whose references resolve either resolves, or stops at its
    first placeholder. *)
Lemma resolve_variables_first_placeholder v :
  refs_resolve str_format variables v = true ->
  match first_placeholder v with
  | None => is_ok (rec v) = true
  | Some p => exists k, rec v = Err (UnresolvedValueError k p "")
  end.
Proof.
  induction v as [ | | | | |items IH|items IH|name|t ns|p]
    using Value_nested_ind; intros Hrefs; try done.
  - (* list *)
    simpl in *. apply forallb_Forall_iff in Hrefs.
    generalize (@nil Value) as acc.
    induction IH as [|x l Hx _ IHl]; intros acc; simpl; [done|].
    apply Forall_cons in Hrefs as [Hr Hrefs]. specialize (Hx Hr).
    destruct (first_placeholder x) as [p|].
    + destruct Hx as [k ->]. by exists k.
    + destruct (resolve_variables str_format x variables); [|done].
      by apply IHl.
  - (* dict *)
    simpl in *. apply forallb_Forall_iff in Hrefs.
    generalize (@nil (string * Value)) as acc.
    induction IH as [|[k x] l Hx _ IHl]; intros acc; simpl; [done|].
    apply Forall_cons in Hrefs as [Hr Hrefs]. simpl in *. specialize (Hx Hr).
    destruct (first_placeholder x) as [p|].
    + destruct Hx as [k' ->]. by exists k.
    + destruct (resolve_variables str_format x variables); [|done].
      by apply IHl.
  - (* Variable *)
    simpl in *. apply bool_decide_eq_true_1 in Hrefs as [v Hv].
    unfold getitem. by rewrite Hv.
  - (* placeholder *)
    simpl. by exists "".
Qed.

(** A value with a placeholder in it never resolves. *)
Lemma resolve_variables_placeholder_fails v p :
  first_placeholder v = Some p -> is_ok (rec v) = false.
Proof.
  revert p.
  induction v as [ | | | | |items IH|items IH|name|t ns|p']
    using Value_nested_ind; intros p; try done.
  - simpl. generalize (@nil Value) as acc.
    induction IH as [|x l Hx _ IHl]; intros acc; simpl; [done|].
    destruct (first_placeholder x) as [q|].
    + intros _. specialize (Hx q eq_refl).
      by destruct (resolve_variables str_format x variables).
    + intros H. destruct (resolve_variables str_format x variables); [|done].
      by apply IHl.
  - simpl. generalize (@nil (string * Value)) as acc.
    induction IH as [|[k x] l Hx _ IHl]; intros acc; simpl; [done|].
    simpl in Hx. destruct (first_placeholder x) as [q|].
    + intros _. specialize (Hx q eq_refl).
      by destruct (resolve_variables str_format x variables).
    + intros H. destruct (resolve_variables str_format x variables); [|done].
      by apply IHl.
Qed.

Lemma resolvable_refs_resolve v :
  resolvable str_format variables v = true ->
  refs_resolve str_format variables v = true /\ first_placeholder v = None.
Proof.
  induction v as [ | | | | |items IH|items IH|name|t ns|p]
    using Value_nested_ind; simpl; try done.
  - rewrite !forallb_Forall_iff. intros H.
    induction IH as [|x l Hx _ IHl]; [done|].
    apply Forall_cons in H as [H1 H2]. destruct (Hx H1) as [? Hnone].
    destruct (IHl H2) as [? ?]. simpl. rewrite Hnone. split; [by constructor | done].
  - rewrite !forallb_Forall_iff. intros H.
    induction IH as [|x l Hx _ IHl]; [done|].
    apply Forall_cons in H as [H1 H2]. destruct (Hx H1) as [? Hnone].
    destruct (IHl H2) as [? ?]. simpl. rewrite Hnone. split; [by constructor | done].
Qed.

Lemma resolvable_is_ok v :
  resolvable str_format variables v = true -> is_ok (rec v) = true.
Proof.
  intros H. apply resolvable_refs_resolve in H as [Hrefs Hnone].
  pose proof (resolve_variables_first_placeholder v Hrefs) as Hv.
  by rewrite Hnone in Hv.
Qed.

(** In a mapping, the error carries the key of the first entry that holds
    a placeholder, whatever the depth at which it holds it. *)
Lemma resolve_variables_placeholder_key pre k child post p :
  Forall (fun kv => resolvable str_format variables (snd kv) = true) pre ->
  refs_resolve str_format variables child = true ->
  first_placeholder child = Some p ->
  rec (VDict (pre ++ (k, child) :: post)) = Err (UnresolvedValueError k p "").
Proof.
  intros Hpre Hrefs Hfirst. simpl.
  destruct (resolve_items_app_ok pre ((k, child) :: post) []) as [final' ->].
  { eapply Forall_impl; [exact Hpre|]. intros kv. apply resolvable_is_ok. }
  simpl. pose proof (resolve_variables_first_placeholder child Hrefs) as Hc.
  rewrite Hfirst in Hc. destruct Hc as [k' ->]. done.
Qed.
End Placeholders.

(** ** The store of the executor *)

Section ExecutorProperties.
Variable str_format : string -> list (string * Value) -> result string.
Context {C : Type}.
Variable client_method :
  string -> option (list (string * Value) -> C -> result Value * C).
Variable jmespath_search : string -> Value -> result Value.

Implicit Types st : Executor C.

Lemma store_view_lookup st name :
  store_view st !! name = deref st <$> variables st !! name.
Proof. unfold store_view. apply lookup_fmap. Qed.

(** C8 (amended).  For a name that is not bound in the store, resolving
    [Variable(name)] and executing [CopyVariable] from [name] raise
    [KeyError(name)], and so does resolving a [StringFormat] in whose list
    of variables [name] is the first one not bound.  For a bound name
    the lookups succeed: the [Variable] resolves to the bound value,
    [CopyVariable] binds the destination, and a [StringFormat] all of whose
    variables are bound gets each of them looked up and is formatted
    from them. *)
Theorem undefined_variable st (name : string) :
  (variables st !! name = None ->
   resolve_variables str_format (VVariable name) (store_view st)
   = Err (KeyError (VStr name))
   /\ (forall template pre post,
         Forall (fun n => is_Some (variables st !! n)) pre ->
         resolve_variables str_format
           (VStringFormat template (pre ++ name :: post)) (store_view st)
         = Err (KeyError (VStr name)))
   /\ (forall to_var,
         _do_copyvariable (CopyVariable name to_var) st
         = (Err (KeyError (VStr name)), st)))
  /\ (forall l, variables st !! name = Some l ->
      resolve_variables str_format (VVariable name) (store_view st)
      = Ok (deref st l)
      /\ (forall template names,
            Forall (fun n => is_Some (variables st !! n)) names ->
            exists kwargs,
              lookup_all (store_view st) names [] = Ok kwargs
              /\ (forall n, n ∈ names -> Dict.get kwargs n = read_var st n)
              /\ resolve_variables str_format (VStringFormat template names)
                   (store_view st)
                 = (s <- str_format template kwargs ;; Ok (VStr s))%result)
      /\ (forall to_var,
            _do_copyvariable (CopyVariable name to_var) st
            = (Ok tt, with_variables (<[to_var := l]> (variables st)) st))).
Proof.
  split.
  - intros Hname. split_and!.
    + simpl. unfold getitem. by rewrite store_view_lookup, Hname.
    + intros template pre post Hpre. simpl.
      rewrite lookup_all_unbound; [done | | by rewrite store_view_lookup, Hname].
      eapply Forall_impl; [exact Hpre|]. intros n [l Hl].
      rewrite store_view_lookup, Hl. by eexists.
    + intros to_var. unfold _do_copyvariable, bind, lookup_object. by rewrite Hname.
  - intros l Hname. split_and!.
    + simpl. unfold getitem. by rewrite store_view_lookup, Hname.
    + intros template names Hnames.
      assert (Hb : Forall (fun n => is_Some (store_view st !! n)) names).
      { eapply Forall_impl; [exact Hnames|]. intros n [l' Hl].
        rewrite store_view_lookup, Hl. by eexists. }
      destruct (lookup_all_bound _ names [] Hb) as [kwargs Hkw].
      exists kwargs. split_and!; [done | |].
      * intros n Hn. rewrite (lookup_all_get _ _ _ _ Hkw n).
        by rewrite bool_decide_eq_true_2.
      * simpl. rewrite Hkw. by destruct (str_format template kwargs).
    + intros to_var. unfold _do_copyvariable, bind, lookup_object. by rewrite Hname.
Qed.

(** No handler changes an object of the store: the objects after it are
    those before it, possibly followed by new ones. *)
Lemma grows_ret {A} (a : A) : grows (C := C) (ret a).
Proof. by intros st. Qed.

Lemma grows_raise {A} e : grows (C := C) (raise (A := A) e).
Proof. by intros st. Qed.

Lemma grows_lift {A} (r : result A) : grows (C := C) (lift r).
Proof. by intros st. Qed.

Lemma grows_bind {A B} (m : M C A) (k : A -> M C B) :
  grows m -> (forall a, grows (k a)) -> grows (bind m k).
Proof.
  intros Hm Hk st. unfold bind. specialize (Hm st).
  destruct (m st) as [[a|e] st1]; simpl in *; [|done].
  etrans; [exact Hm | apply Hk].
Qed.

Lemma grows_add_to_deployed_values payload :
  grows (C := C) (_add_to_deployed_values payload).
Proof.
  intros st. unfold _add_to_deployed_values, raise.
  repeat case_match; simpl; done.
Qed.

Lemma grows_new_object v : grows (C := C) (new_object v).
Proof. intros st. simpl. by apply prefix_app_r. Qed.

Lemma grows_call method kwargs : grows (C := C) (call method kwargs).
Proof.
  intros st. unfold call, raise. destruct kwargs; simpl; try done.
  by destruct (method items (client st)).
Qed.

Lemma grows_resolve_variables api_call :
  grows (C := C) (_resolve_variables str_format api_call).
Proof.
  intros st. unfold _resolve_variables, raise. destruct api_call; simpl; try done.
  by destruct (resolve_variables _ _ _).
Qed.

Lemma grows_resolve_object v : grows (C := C) (resolve_object str_format v).
Proof.
  assert (Hl : forall name, grows (C := C) (lookup_object name)).
  { intros name st. unfold lookup_object. by destruct (variables st !! name). }
  destruct v; simpl; try apply Hl;
    (apply grows_bind; [by intros st | intros; apply grows_new_object]).
Qed.

Local Ltac grows_step :=
  first [ apply grows_ret | apply grows_raise | apply grows_lift
        | apply grows_add_to_deployed_values | apply grows_new_object
        | apply grows_call | apply grows_resolve_variables
        | apply grows_resolve_object
        | (apply grows_bind; [|intros])
        | (by intros ?)
        | (intros ?; unfold lookup_object; by case_match) ].

Lemma handler_keeps_objects name handler instruction :
  executor_getattr str_format client_method jmespath_search name = Some handler ->
  grows (handler instruction).
Proof.
  unfold executor_getattr. intros H.
  repeat case_match; try done; injection H as <-;
    destruct instruction; simpl; try apply grows_raise;
    repeat (case_match; try grows_step); repeat grows_step.
Qed.

Lemma step_keeps_objects messages pos instruction st :
  objects st `prefix_of`
    objects (snd (step str_format client_method jmespath_search messages pos
                    instruction st)).
Proof.
  unfold step, bind, ui_write, modify, ret.
  destruct (executor_getattr str_format client_method jmespath_search _)
    as [handler|] eqn:E; simpl.
  - destruct (messages !! pos); simpl.
    + apply (handler_keeps_objects _ handler instruction E (with_ui _ st)).
    + apply (handler_keeps_objects _ handler instruction E st).
  - by destruct (messages !! pos).
Qed.

Lemma execute_from_keeps_objects messages instrs : forall pos,
  grows (execute_from str_format client_method jmespath_search messages pos instrs).
Proof.
  induction instrs as [|i instrs IH]; intros pos; simpl; [apply grows_ret|].
  apply grows_bind; [|intros; apply IH].
  intros st. apply step_keeps_objects.
Qed.

(** C5 (amended).  [CopyVariable] binds the destination to the very
    object the source is bound to; no copy is made.  Reading the
    destination yields the source's value at copy time; binding another
    name afterwards leaves it so, and no instruction run afterwards changes
    the object.  But an in-place mutation of the shared object, by whoever
    holds it, shows through both names. *)
Theorem copyvariable_shares st (from_var to_var : string) (l : nat) :
  variables st !! from_var = Some l ->
  exists st',
    _do_copyvariable (CopyVariable from_var to_var) st = (Ok tt, st')
    /\ read_var st' to_var = read_var st from_var
    /\ variables st' !! to_var = Some l
    /\ variables st' !! from_var = Some l
    /\ objects st' = objects st
    /\ (forall name l', name <> to_var ->
          read_var (snd (setitem name l' st')) to_var = read_var st from_var)
    /\ (forall messages pos instrs,
          l < length (objects st) ->
          objects (snd (execute_from str_format client_method jmespath_search
                          messages pos instrs st')) !! l
          = objects st !! l)
    /\ (forall v, l < length (objects st) ->
          read_var (mutate_object l v st') to_var = Some v
          /\ read_var (mutate_object l v st') from_var = Some v).
Proof.
  intros Hfrom. eexists. split.
  { unfold _do_copyvariable, bind, lookup_object. rewrite Hfrom. reflexivity. }
  assert (Hfrom' : <[to_var := l]> (variables st) !! from_var = Some l).
  { destruct (decide (to_var = from_var)) as [->|Hne];
      [apply lookup_insert_eq | by rewrite lookup_insert_ne]. }
  split_and!; simpl.
  - unfold read_var. rewrite !store_view_lookup. simpl.
    by rewrite lookup_insert_eq, Hfrom.
  - apply lookup_insert_eq.
  - done.
  - done.
  - intros name l' Hne. unfold read_var. rewrite !store_view_lookup. simpl.
    rewrite lookup_insert_ne by done. by rewrite lookup_insert_eq, Hfrom.
  - intros messages pos instrs Hl. symmetry.
    apply prefix_lookup_lt; [done|].
    apply (execute_from_keeps_objects messages instrs pos
             (with_variables (<[to_var := l]> (variables st)) st)).
  - intros v Hl. unfold read_var. rewrite !store_view_lookup. simpl.
    rewrite lookup_insert_eq, Hfrom'. simpl. unfold deref. simpl.
    by rewrite list_lookup_insert_eq.
Qed.

(** C6.  [BuiltinFunction] with [parse_arn], whose [args] resolve to a
    list that starts with a string of at least five segments between
    colons, binds [output_var] to the record of segments 2, 3 and 4; any
    other function name raises [ValueError], naming it. *)
Theorem builtinfunction_parse_arn st (args : Value) (output_var : string) :
  (forall (arn : string) (rest : list Value),
     resolve_variables str_format args (store_view st)
     = Ok (VList (VStr arn :: rest)) ->
     5 <= length (split ":" arn) ->
     exists st',
       _do_builtinfunction str_format (BuiltinFunction "parse_arn" args output_var) st
       = (Ok tt, st')
       /\ read_var st' output_var
          = Some (VDict [("service", VStr (nth 2 (split ":" arn) EmptyString));
                         ("region", VStr (nth 3 (split ":" arn) EmptyString));
                         ("account_id", VStr (nth 4 (split ":" arn) EmptyString))]))
  /\ (forall function_name,
        function_name <> "parse_arn" ->
        _do_builtinfunction str_format
          (BuiltinFunction function_name args output_var) st
        = (Err (ValueError ("Unknown builtin function: " +:+ function_name)), st)).
Proof.
  split.
  - intros arn rest Hargs Hlen.
    unfold _do_builtinfunction, bind, resolve, lift. simpl. rewrite Hargs. simpl.
    assert (Hpart : forall i, i < 5 ->
              part (split ":" arn) i = Ok (nth i (split ":" arn) EmptyString)).
    { intros i Hi. unfold part.
      destruct (split ":" arn !! i) as [p|] eqn:E.
      - by rewrite (nth_lookup_Some _ _ EmptyString _ E).
      - apply lookup_ge_None in E. lia. }
    rewrite !Hpart by lia. eexists. split; [reflexivity|].
    unfold read_var. rewrite store_view_lookup. simpl.
    rewrite lookup_insert_eq. simpl. unfold deref. simpl.
    by rewrite list_lookup_middle.
  - intros function_name Hne. unfold _do_builtinfunction.
    destruct (String.eqb function_name "parse_arn") eqn:E; [|done].
    by apply String.eqb_eq in E.
Qed.

(** C2 (amended).  A value with a placeholder in it never resolves.  In
    a mapping whose earlier entries resolve, the first entry that holds a
    placeholder, at any depth, makes resolution raise
    [UnresolvedValueError] with that entry's key and the placeholder,
    provided the references met before it resolve; and [APICall] raises
    it with the call's method name, before calling the client. *)
Theorem unresolved_placeholder st :
  (forall value q,
     first_placeholder value = Some q ->
     is_ok (resolve_variables str_format value (store_view st)) = false)
  /\ (forall (method_name : string) (output_var : option string)
        pre (k : string) (child : Value) post (p : Placeholder),
        Forall (fun kv => resolvable str_format (store_view st) (snd kv) = true) pre ->
        refs_resolve str_format (store_view st) child = true ->
        first_placeholder child = Some p ->
        resolve_variables str_format (VDict (pre ++ (k, child) :: post)) (store_view st)
        = Err (UnresolvedValueError k p "")
        /\ _do_apicall str_format client_method
             (APICall method_name (VDict (pre ++ (k, child) :: post)) output_var) st
           = (Err (UnresolvedValueError k p method_name), st)).
Proof.
  split.
  - intros value q. apply resolve_variables_placeholder_fails.
  - intros method_name output_var pre k child post p Hpre Hrefs Hfirst.
    pose proof (resolve_variables_placeholder_key str_format (store_view st)
                  pre k child post p Hpre Hrefs Hfirst) as Hkey.
    split; [exact Hkey|].
    unfold _do_apicall, bind, _resolve_variables. by rewrite Hkey.
Qed.

(** ** C4: instructions without a handler *)

Lemma execute_from_app messages pos pre rest st :
  execute_from str_format client_method jmespath_search messages pos (pre ++ rest) st
  = match execute_from str_format client_method jmespath_search messages pos pre st with
    | (Ok _, st1) =>
        execute_from str_format client_method jmespath_search messages
          (pos + length pre) rest st1
    | (Err e, st1) => (Err e, st1)
    end.
Proof.
  revert pos st. induction pre as [|i pre IH]; intros pos st; simpl.
  - unfold ret. by rewrite Nat.add_0_r.
  - unfold bind.
    destruct (step str_format client_method jmespath_search messages pos i st)
      as [[[]|e] st1]; [|done].
    rewrite IH. by replace (S pos + length pre) with (pos + S (length pre)) by lia.
Qed.

Lemma step_unknown messages pos instruction st :
  executor_getattr str_format client_method jmespath_search
    ("_do_" +:+ lower (class_name instruction)) = None ->
  step str_format client_method jmespath_search messages pos instruction st
  = (Err (unknown_instruction_error instruction),
     match messages !! pos with
     | Some message => with_ui (ui st ++ [message]) st
     | None => st
     end).
Proof.
  intros Hnone. unfold step. rewrite Hnone. simpl.
  unfold bind. by destruct (messages !! pos).
Qed.
End ExecutorProperties.

(** ** Examples on a concrete executor *)

Lemma undefined_variable_witness :
  _do_copyvariable (CopyVariable "b" "c") example_store
  = (Err (KeyError (VStr "b")), example_store)
  /\ resolve_variables str_format_fragment
       (VStringFormat "{arn}/{b}" ["arn"; "b"]) (store_view example_store)
     = Err (KeyError (VStr "b"))
  /\ resolve_variables str_format_fragment (VVariable "a") (store_view example_store)
     = Ok (VList [VInt 1])
  /\ _do_copyvariable (CopyVariable "a" "c") example_store
     = (Ok tt, with_variables (<["c" := 0]> (variables example_store)) example_store).
Proof.
  destruct (undefined_variable str_format_fragment example_store "b") as [Hb _].
  destruct (Hb eq_refl) as (_ & Hfmt & Hcopy).
  destruct (undefined_variable str_format_fragment example_store "a") as [_ Ha].
  destruct (Ha 0 eq_refl) as (Hvar & _ & Hcopy').
  split_and!.
  - apply Hcopy.
  - apply (Hfmt "{arn}/{b}" ["arn"] []). repeat constructor. by exists 1.
  - exact Hvar.
  - apply Hcopy'.
Defined.

(** C8, as stated, fails for a [StringFormat]: the name reported is the
    first unbound one of the list, which need not be [name]. *)
Lemma undefined_variable_counterexample :
  let variables : gmap string Value := ∅ in
  variables !! "b" = None
  /\ "b" ∈ ["a"; "b"]
  /\ resolve_variables str_format_fragment (VStringFormat "{a}{b}" ["a"; "b"]) variables
     = Err (KeyError (VStr "a"))
  /\ resolve_variables str_format_fragment (VStringFormat "{a}{b}" ["a"; "b"]) variables
     <> Err (KeyError (VStr "b")).
Proof.
  intros variables. split_and!; [done | set_solver | done | done].
Qed.

Lemma copyvariable_shares_witness :
  exists st',
    _do_copyvariable (CopyVariable "a" "b") example_store = (Ok tt, st')
    /\ read_var st' "b" = Some (VList [VInt 1])
    /\ variables st' !! "b" = variables st' !! "a".
Proof.
  destruct (copyvariable_shares str_format_fragment client_fragment jmespath_fragment
              example_store "a" "b" 0 eq_refl)
    as (st' & Hrun & Hread & Hto & Hfrom & _).
  exists st'. split_and!; [exact Hrun | exact Hread | by rewrite Hto, Hfrom].
Defined.

(** C5, as stated, fails: after the copy both names are bound to one
    object, and a mutation of the object bound to ["a"] (here
    [variables['a'].append(2)]) changes what ["b"] reads. *)
Lemma copyvariable_shares_counterexample :
  let st' := snd (_do_copyvariable (CopyVariable "a" "b") example_store) in
  let mutated := mutate_object 0 (VList [VInt 1; VInt 2]) st' in
  variables st' !! "a" = Some 0
  /\ read_var st' "b" = Some (VList [VInt 1])
  /\ read_var mutated "b" = Some (VList [VInt 1; VInt 2])
  /\ read_var mutated "b" <> read_var example_store "a".
Proof.
  intros st' mutated. split_and!; [done | done | done | ].
  vm_compute. discriminate.
Qed.

Lemma builtinfunction_parse_arn_witness :
  exists st',
    _do_builtinfunction str_format_fragment
      (BuiltinFunction "parse_arn" (VList [VVariable "arn"]) "parsed") example_store
    = (Ok tt, st')
    /\ read_var st' "parsed"
       = Some (VDict [("service", VStr "lambda");
                      ("region", VStr "us-west-2");
                      ("account_id", VStr "123456789012")]).
Proof.
  destruct (proj1 (builtinfunction_parse_arn str_format_fragment example_store
                     (VList [VVariable "arn"]) "parsed")
              "arn:aws:lambda:us-west-2:123456789012:function:foo" [])
    as (st' & Hrun & Hread).
  - reflexivity.
  - vm_compute. lia.
  - exists st'. split; [exact Hrun | exact Hread].
Defined.

(** ** C4: both executors on an instruction without a handler *)

Section UnknownInstruction.
Variable str_format : string -> list (string * Value) -> result string.
Context {C : Type}.
Variable client_method :
  string -> option (list (string * Value) -> C -> result Value * C).
Variable jmespath_search : string -> Value -> result Value.
Variable py_str pformat : Value -> string.

Lemma display_execute_all_app pre rest ui sp :
  DisplayOnlyExecutor.execute_all py_str (pre ++ rest) ui sp
  = (let (ui1, sp1) := DisplayOnlyExecutor.execute_all py_str pre ui sp in
     DisplayOnlyExecutor.execute_all py_str rest ui1 sp1).
Proof.
  revert ui sp. induction pre as [|i pre IH]; intros ui sp; simpl; [done|].
  destruct (DisplayOnlyExecutor._default_handler py_str i ui sp) as [ui1 sp1].
  apply IH.
Qed.

(** C4 (amended).  In [Executor], an instruction whose class has no
    handler raises [RuntimeError] naming the class; the instructions
    before it have run, its message, if it has one, has been written, and
    nothing after it runs.  [DisplayOnlyExecutor] has no handlers at all:
    it renders such an instruction like any other and goes on to the
    next. *)
Theorem unknown_instruction (messages : gmap nat string)
    (pre post : list Instruction) (instruction : Instruction) :
  executor_getattr str_format client_method jmespath_search
    ("_do_" +:+ lower (class_name instruction)) = None ->
  (forall st st1 : Executor C,
     execute_from str_format client_method jmespath_search messages 0 pre st
     = (Ok tt, st1) ->
     execute str_format client_method jmespath_search
       {| instructions := pre ++ instruction :: post; messages := messages |} st
     = (Err (unknown_instruction_error instruction),
        match messages !! length pre with
        | Some message => with_ui (ui st1 ++ [message]) st1
        | None => st1
        end))
  /\ (forall ui sp,
        DisplayOnlyExecutor.execute_all py_str (pre ++ instruction :: post) ui sp
        = (let (ui1, sp1) := DisplayOnlyExecutor.execute_all py_str pre ui sp in
           let (ui2, sp2) :=
             DisplayOnlyExecutor._default_handler py_str instruction ui1 sp1 in
           DisplayOnlyExecutor.execute_all py_str post ui2 sp2)).
Proof.
  intros Hnone. split.
  - intros st st1 Hpre. unfold execute. simpl.
    rewrite execute_from_app, Hpre. simpl.
    unfold bind. by rewrite step_unknown.
  - intros ui sp. rewrite display_execute_all_app.
    by destruct (DisplayOnlyExecutor.execute_all py_str pre ui sp).
Qed.
End UnknownInstruction.

Lemma unknown_instruction_witness :
  let plan := {| instructions := [CopyVariable "a" "b";
                                  OtherInstruction "DeleteEverything" [];
                                  CopyVariable "a" "c"];
                 messages := <[1 := "About to delete"]> ∅ |} in
  let st1 := with_variables (<["b" := 0]> (variables example_store)) example_store in
  execute str_format_fragment client_fragment jmespath_fragment plan example_store
  = (Err (RuntimeError
            "Deployment executor encountered an unknown instruction: DeleteEverything"),
     with_ui ["About to delete"] st1).
Proof.
  intros plan st1.
  refine (proj1 (unknown_instruction str_format_fragment client_fragment
                   jmespath_fragment str_fragment (<[1 := "About to delete"]> ∅)
                   [CopyVariable "a" "b"] [CopyVariable "a" "c"]
                   (OtherInstruction "DeleteEverything" []) _) example_store st1 _);
    reflexivity.
Defined.

(** C4, as stated, fails for [DisplayOnlyExecutor]: the instruction of
    class [Foo], for which [Executor] has no handler, is rendered, and so is
    the instruction after it. *)
Lemma unknown_instruction_counterexample :
  let plan := {| instructions := [OtherInstruction "Foo" [("x", VInt 3)];
                                  CopyVariable "a" "b"];
                 messages := ∅ |} in
  executor_getattr str_format_fragment client_fragment jmespath_fragment
    ("_do_" +:+ lower "Foo") = None
  /\ DisplayOnlyExecutor.execute str_fragment str_fragment plan []
     = ["Plan" +:+ newline; "====" +:+ newline +:+ newline;
        DisplayOnlyExecutor.instruction_line "FOO" "x" "3" +:+ newline;
        newline;
        DisplayOnlyExecutor.instruction_line "COPY_VARIABLE" "from_var" "a" +:+ newline;
        DisplayOnlyExecutor.instruction_line "" "to_var" "b" +:+ newline;
        newline].
Proof.
  intros plan. split; vm_compute; reflexivity.
Qed.

Lemma unresolved_placeholder_witness :
  let build_stage := PlaceholderMember "BUILD_STAGE" in
  let params :=
    VDict [("FunctionName", VStr "app-dev");
           ("Code", VDict [("Layers", VList [VVariable "arn";
                                             VDict [("Zip", VPlaceholder build_stage)]])]);
           ("Role", VVariable "role_arn")] in
  resolve_variables str_format_fragment params (store_view example_store)
  = Err (UnresolvedValueError "Code" build_stage "")
  /\ _do_apicall str_format_fragment client_fragment
       (APICall "create_function" params (Some "function")) example_store
     = (Err (UnresolvedValueError "Code" build_stage "create_function"), example_store).
Proof.
  intros build_stage params.
  refine (proj2 (unresolved_placeholder str_format_fragment client_fragment
                   example_store) "create_function" (Some "function")
            [("FunctionName", VStr "app-dev")] "Code"
            (VDict [("Layers", VList [VVariable "arn";
                                      VDict [("Zip", VPlaceholder build_stage)]])])
            [("Role", VVariable "role_arn")] build_stage _ _ _).
  - repeat constructor.
  - reflexivity.
  - reflexivity.
Defined.

(** C2, as stated, fails: a reference that cannot be resolved, met before
    the placeholder, raises its own error; and of two placeholders the
    first one met is reported, not the one under the later key. *)
Lemma unresolved_placeholder_counterexample :
  let p := PlaceholderMember "BUILD_STAGE" in
  let q := PlaceholderMember "DEPLOY_STAGE" in
  let unbound := VDict [("a", VVariable "missing"); ("b", VDict [("c", VPlaceholder p)])] in
  let two := VDict [("a", VPlaceholder p); ("b", VDict [("c", VPlaceholder q)])] in
  first_placeholder (VDict [("c", VPlaceholder p)]) = Some p
  /\ resolve_variables str_format_fragment unbound ∅ = Err (KeyError (VStr "missing"))
  /\ (forall k v m, resolve_variables str_format_fragment unbound ∅
                    <> Err (UnresolvedValueError k v m))
  /\ resolve_variables str_format_fragment two ∅ = Err (UnresolvedValueError "a" p "")
  /\ resolve_variables str_format_fragment two ∅ <> Err (UnresolvedValueError "b" q "").
Proof.
  intros p q unbound two. split_and!; try reflexivity.
  - intros k v m. vm_compute. discriminate.
  - vm_compute. discriminate.
Qed.

(** ** C1: the resource records *)

Lemma dict_get_None {A} (d : list (string * A)) k :
  Dict.get d k = None <-> k ∉ map fst d.
Proof.
  induction d as [|[k' v] d IH]; simpl.
  - split; [intros _; apply not_elem_of_nil | done].
  - destruct (String.eqb k' k) eqn:E.
    + apply String.eqb_eq in E. subst. split; [done | intros H; exfalso; apply H; left].
    + apply String.eqb_neq in E. rewrite IH, not_elem_of_cons. naive_solver.
Qed.

Lemma dict_get_update (d other : list (string * Value)) k :
  NoDup (map fst other) ->
  Dict.get (Dict.update d other) k
  = match Dict.get other k with
    | Some v => Some v
    | None => Dict.get d k
    end.
Proof.
  unfold Dict.update. revert d.
  induction other as [|[k' v'] other IH]; intros d Hnd; simpl; [done|].
  simpl in Hnd. apply NoDup_cons in Hnd as [Hk' Hnd]. rewrite IH by done.
  destruct (String.eqb k' k) eqn:E.
  - apply String.eqb_eq in E. subst k'.
    apply dict_get_None in Hk'. by rewrite Hk', dict_get_set_eq.
  - apply String.eqb_neq in E. by rewrite dict_get_set_ne.
Qed.

Lemma record_payload_NoDup rn rt a v : NoDup (map fst (record_payload rn rt a v)).
Proof.
  unfold record_payload. do 2 apply dict_set_NoDup. simpl. apply NoDup_singleton.
Qed.

Lemma record_payload_name rn rt a v :
  a <> "name" -> Dict.get (record_payload rn rt a v) "name" = Some (VStr rn).
Proof.
  intros Ha. unfold record_payload.
  rewrite dict_get_set_ne by done. by rewrite dict_get_set_ne.
Qed.

Lemma merge_into_names named n p :
  map fst (merge_into named n p)
  = if bool_decide (n ∈ map fst named) then map fst named else map fst named ++ [n].
Proof.
  induction named as [|[n' r] named IH]; simpl; [done|].
  destruct (String.eqb n' n) eqn:E.
  - apply String.eqb_eq in E. subst. simpl.
    rewrite bool_decide_eq_true_2; [done | left].
  - apply String.eqb_neq in E. simpl. rewrite IH.
    destruct (decide (n ∈ map fst named)) as [Hin|Hnotin].
    + rewrite !bool_decide_eq_true_2; [done | by right | done].
    + rewrite !bool_decide_eq_false_2; [done | | done].
      apply not_elem_of_cons. split; [done | done].
Qed.

Lemma merged_snoc payloads n p :
  merged (payloads ++ [(n, p)]) = merge_into (merged payloads) n p.
Proof. unfold merged. by rewrite fold_left_app. Qed.

Lemma first_seen_snoc names n :
  first_seen (names ++ [n])
  = if bool_decide (n ∈ first_seen names) then first_seen names
    else first_seen names ++ [n].
Proof. unfold first_seen. by rewrite fold_left_app. Qed.

Lemma last_written_snoc payloads n' p n a :
  last_written (payloads ++ [(n', p)]) n a
  = if String.eqb n' n then
      match Dict.get p a with
      | Some v => Some v
      | None => last_written payloads n a
      end
    else last_written payloads n a.
Proof. unfold last_written. by rewrite fold_left_app. Qed.

Lemma merged_names payloads :
  map fst (merged payloads) = first_seen (map fst payloads).
Proof.
  induction payloads as [|[n p] payloads IH] using rev_ind; [done|].
  rewrite merged_snoc, merge_into_names, map_app.
  change (map fst [(n, p)]) with [n]. by rewrite first_seen_snoc, IH.
Qed.

Lemma first_seen_elem names n : n ∈ first_seen names <-> n ∈ names.
Proof.
  induction names as [|m names IH] using rev_ind; [done|].
  rewrite first_seen_snoc, elem_of_app, list_elem_of_singleton, <- IH.
  case_bool_decide as Hm.
  - split; [by left | intros [?| ->]; done].
  - by rewrite elem_of_app, list_elem_of_singleton.
Qed.

Lemma first_seen_NoDup names : NoDup (first_seen names).
Proof.
  induction names as [|m names IH] using rev_ind; [apply NoDup_nil_2|].
  rewrite first_seen_snoc. case_bool_decide as Hm; [done|].
  apply NoDup_app. split_and!; [done | | apply NoDup_singleton].
  intros x Hx Hx'. apply list_elem_of_singleton in Hx'. by subst.
Qed.

Lemma last_written_absent payloads n a :
  n ∉ map fst payloads -> last_written payloads n a = None.
Proof.
  induction payloads as [|[n' p] payloads IH] using rev_ind; [done|].
  rewrite map_app, not_elem_of_app. simpl. intros [H1 H2].
  apply not_elem_of_cons in H2 as [Hne _].
  rewrite last_written_snoc.
  destruct (String.eqb n' n) eqn:E; [apply String.eqb_eq in E; congruence|].
  by apply IH.
Qed.

Lemma merge_into_elem named n p n0 r0 :
  NoDup (map fst named) ->
  (n0, r0) ∈ merge_into named n p ->
  (n0 = n /\ (n ∉ map fst named) /\ r0 = p)
  \/ (n0 = n /\ exists r, (n, r) ∈ named /\ r0 = Dict.update r p)
  \/ (n0 <> n /\ (n0, r0) ∈ named).
Proof.
  induction named as [|[n' r] named IH]; simpl; intros Hnd Hin.
  - apply list_elem_of_singleton in Hin as [= -> ->].
    left. split_and!; [done | apply not_elem_of_nil | done].
  - apply NoDup_cons in Hnd as [Hn' Hnd].
    destruct (String.eqb n' n) eqn:E.
    + apply String.eqb_eq in E. subst n'.
      apply elem_of_cons in Hin as [[= -> ->]|Hin].
      * right. left. split; [done|]. exists r. split; [left | done].
      * right. right. split; [|by right].
        intros ->. apply Hn'. apply list_elem_of_fmap. by exists (n, r0).
    + apply String.eqb_neq in E.
      apply elem_of_cons in Hin as [[= -> ->]|Hin].
      * right. right. split; [done | left].
      * destruct (IH Hnd Hin) as [(-> & Hnot & ->)|[(-> & r' & Hr' & ->)|(Hne & Hin')]].
        -- left. split_and!; [done | | done]. by apply not_elem_of_cons.
        -- right. left. split; [done|]. exists r'. split; [by right | done].
        -- right. right. split; [done | by right].
Qed.

Lemma last_written_name payloads n :
  Forall (fun np => Dict.get (snd np) "name" = Some (VStr (fst np))) payloads ->
  n ∈ map fst payloads ->
  last_written payloads n "name" = Some (VStr n).
Proof.
  induction payloads as [|[n' p] payloads IHp] using rev_ind; intros Hp Hn;
    [by apply elem_of_nil in Hn|].
  apply Forall_app in Hp as [Hps Hp].
  rewrite Forall_singleton in Hp. simpl in Hp.
  rewrite last_written_snoc.
  destruct (String.eqb n' n) eqn:E.
  - apply String.eqb_eq in E. subst. by rewrite Hp.
  - apply String.eqb_neq in E. apply IHp; [done|].
    rewrite map_app in Hn. apply elem_of_app in Hn as [?|Hn]; [done|].
    apply list_elem_of_singleton in Hn. simpl in Hn. congruence.
Qed.

(** Every merged record carries its name, and each of its attributes has
    the value written last. *)
Lemma merged_last_written payloads :
  Forall (fun np => NoDup (map fst (snd np))
                    /\ Dict.get (snd np) "name" = Some (VStr (fst np))) payloads ->
  Forall (fun nr => forall a, Dict.get (snd nr) a = last_written payloads (fst nr) a)
    (merged payloads).
Proof.
  induction payloads as [|[n p] payloads IH] using rev_ind; intros Hp.
  - constructor.
  - apply Forall_app in Hp as [Hps Hp]. apply Forall_singleton in Hp as [Hnd Hname].
    simpl in *. specialize (IH Hps). rewrite Forall_forall in IH.
    rewrite merged_snoc. apply Forall_forall. intros [n0 r0] Hin a. simpl.
    rewrite last_written_snoc.
    apply merge_into_elem in Hin;
      [|rewrite merged_names; apply first_seen_NoDup].
    destruct Hin as [(-> & Hnot & ->)|[(-> & r' & Hr' & ->)|(Hne & Hin')]].
    + rewrite String.eqb_refl. destruct (Dict.get p a); [done|].
      symmetry. apply last_written_absent.
      by rewrite merged_names, first_seen_elem in Hnot.
    + rewrite String.eqb_refl, dict_get_update by done.
      destruct (Dict.get p a); [done|]. apply (IH _ Hr').
    + destruct (String.eqb n n0) eqn:E; [apply String.eqb_eq in E; congruence|].
      apply (IH _ Hin').
Qed.

Lemma map_is_fmap {A B} (f : A -> B) (l : list A) : map f l = f <$> l.
Proof. reflexivity. Qed.

Lemma index_get_zip named k n p :
  match index_get (zip (map (fun nr => VStr (fst nr)) named) (seq k (length named)))
          (VStr n) with
  | None => merge_into named n p = named ++ [(n, p)]
  | Some l =>
      exists j r, l = k + j /\ named !! j = Some (n, r)
                  /\ merge_into named n p = <[j := (n, Dict.update r p)]> named
  end.
Proof.
  revert k. induction named as [|[n' r] named IH]; intros k; simpl; [done|].
  destruct (String.eqb n' n) eqn:E.
  - apply String.eqb_eq in E. subst n'. exists 0, r. split_and!; [lia | done | done].
  - specialize (IH (S k)).
    destruct (index_get _ _) as [l|].
    + destruct IH as (j & r' & -> & Hj & ->). exists (S j), r'.
      split_and!; [lia | done | done].
    + by rewrite IH.
Qed.

Lemma map_lookup_seq {A} (d : A) (l : list A) :
  map (fun i => default d (l !! i)) (seq 0 (length l)) = l.
Proof.
  induction l as [|x l IH] using rev_ind; [done|].
  rewrite length_app. simpl. rewrite Nat.add_1_r, seq_S, map_app. simpl.
  rewrite list_lookup_middle by done. simpl. f_equal.
  rewrite <- IH at 2. apply map_ext_in. intros i Hi. apply in_seq in Hi.
  by rewrite lookup_app_l by lia.
Qed.

Section Records.
Variable str_format : string -> list (string * Value) -> result string.
Context {C : Type}.
Variable client_method :
  string -> option (list (string * Value) -> C -> result Value * C).
Variable jmespath_search : string -> Value -> result Value.

Implicit Types st : Executor C.

Lemma holds_records_output st named :
  holds_records st named -> output st = map snd named.
Proof.
  intros (Hrec & _ & Hrv). unfold output, record_at. rewrite Hrv, Hrec.
  rewrite <- (length_map snd named). apply map_lookup_seq.
Qed.

Lemma add_to_deployed_values_merges st named n payload :
  holds_records st named ->
  Dict.get payload "name" = Some (VStr n) ->
  exists st',
    _add_to_deployed_values payload st = (Ok tt, st')
    /\ holds_records st' (merge_into named n payload)
    /\ objects st' = objects st /\ variables st' = variables st.
Proof.
  intros (Hrec & Hix & Hrv) Hname. unfold _add_to_deployed_values.
  rewrite Hname. simpl. rewrite Hix.
  pose proof (index_get_zip named 0 n payload) as Hget.
  destruct (index_get _ _) as [l|].
  - destruct Hget as (j & r & -> & Hj & ->). simpl.
    eexists. split; [reflexivity|]. unfold holds_records. simpl.
    split_and!; try done.
    + unfold record_at. rewrite Hrec, !map_is_fmap, list_lookup_fmap, Hj. simpl.
      by rewrite list_fmap_insert.
    + rewrite Hix, length_insert. f_equal.
      rewrite !map_is_fmap, list_fmap_insert. simpl. symmetry. apply list_insert_id.
      by rewrite list_lookup_fmap, Hj.
    + by rewrite Hrv, length_insert.
  - rewrite Hget. eexists. split; [reflexivity|]. unfold holds_records. simpl.
    split_and!; try done.
    + by rewrite Hrec, map_app.
    + rewrite Hrec, length_map, map_app, length_app. simpl.
      rewrite Nat.add_1_r, seq_S. simpl.
      rewrite zip_with_app by (by rewrite length_map, length_seq). done.
    + rewrite Hrv, Hrec, length_map, length_app. simpl.
      by rewrite Nat.add_1_r, seq_S.
Qed.

Abbreviation run_step :=
  (step str_format client_method jmespath_search).
Abbreviation run_from :=
  (execute_from str_format client_method jmespath_search).

Lemma store_view_eq st st' :
  objects st' = objects st -> variables st' = variables st ->
  store_view st' = store_view st.
Proof. intros Ho Hv. unfold store_view, deref. by rewrite Ho, Hv. Qed.

(** A record instruction either merges what it records or, when its
    variable is not bound, raises and leaves the records alone. *)
Lemma step_records messages pos i st named :
  records_attribute i = true ->
  holds_records st named ->
  exists r st',
    run_step messages pos i st = (r, st')
    /\ store_view st' = store_view st
    /\ match recorded (store_view st) i with
       | Some (n, payload) =>
           r = Ok tt /\ holds_records st' (merge_into named n payload)
       | None => is_ok r = false /\ holds_records st' named
       end.
Proof.
  intros Hattr Hinv.
  set (st0 := match messages !! pos with
              | Some message => with_ui (ui st ++ [message]) st
              | None => st
              end).
  assert (Hinv0 : holds_records st0 named) by (subst st0; by destruct (messages !! pos)).
  assert (Hview0 : store_view st0 = store_view st)
    by (subst st0; by destruct (messages !! pos)).
  assert (Hstep : forall handler,
            default _default_handler
              (executor_getattr str_format client_method jmespath_search
                 ("_do_" +:+ lower (class_name i))) = handler ->
            run_step messages pos i st = handler i st0).
  { intros handler <-. unfold step, bind. subst st0. by destruct (messages !! pos). }
  destruct i as [| | |rn rt a vn|rn rt a v| | |]; try done; simpl in Hattr;
    apply negb_true_iff, String.eqb_neq in Hattr.
  - rewrite (Hstep _ eq_refl). simpl. unfold bind, lookup_value, getitem.
    rewrite Hview0. destruct (store_view st !! vn) as [v|] eqn:Hv.
    + destruct (add_to_deployed_values_merges st0 named rn
                  (record_payload rn rt a v) Hinv0 (record_payload_name _ _ _ _ Hattr))
        as (st' & Hrun & Hinv' & Ho & Hvars).
      exists (Ok tt), st'. split; [done|]. split; [|done].
      rewrite <- Hview0. by apply store_view_eq.
    + by exists (Err (KeyError (VStr vn))), st0.
  - rewrite (Hstep _ eq_refl). simpl.
    destruct (add_to_deployed_values_merges st0 named rn
                (record_payload rn rt a v) Hinv0 (record_payload_name _ _ _ _ Hattr))
      as (st' & Hrun & Hinv' & Ho & Hvars).
    exists (Ok tt), st'. split; [done|]. split; [|done].
    rewrite <- Hview0. by apply store_view_eq.
Qed.

Lemma execute_from_records messages instrs : forall pos st named,
  Forall (fun i => records_attribute i = true) instrs ->
  holds_records st named ->
  exists run rest r st' payloads,
    run_from messages pos instrs st = (r, st')
    /\ instrs = run ++ rest
    /\ (r = Ok tt -> rest = [])
    /\ (is_ok r = false ->
        exists i rest', rest = i :: rest' /\ recorded (store_view st) i = None)
    /\ Forall2 (fun i np => recorded (store_view st) i = Some np) run payloads
    /\ holds_records st'
         (fold_left (fun acc np => merge_into acc (fst np) (snd np)) payloads named).
Proof.
  induction instrs as [|i instrs IH]; intros pos st named Hall Hinv.
  - exists [], [], (Ok tt), st, []. simpl. by split_and!.
  - apply Forall_cons in Hall as [Hi Hall].
    destruct (step_records messages pos i st named Hi Hinv)
      as (r1 & st1 & Hstep & Hview & Hrec).
    simpl. unfold bind. rewrite Hstep.
    destruct (recorded (store_view st) i) as [[n payload]|] eqn:Hi'.
    + destruct Hrec as [-> Hinv1].
      destruct (IH (S pos) st1 _ Hall Hinv1)
        as (run & rest & r & st' & payloads & Hrun & -> & Hok & Herr & Hpay & Hinv').
      exists (i :: run), rest, r, st', ((n, payload) :: payloads).
      split_and!; try done.
      * intros Hr. destruct (Herr Hr) as (i' & rest' & -> & Hnone).
        exists i', rest'. by rewrite <- Hview.
      * constructor; [done|]. eapply Forall2_impl; [exact Hpay|].
        intros ? ?. by rewrite Hview.
    + destruct Hrec as [Hr1 Hinv1]. destruct r1 as [[]|e]; [done|].
      exists [], (i :: instrs), (Err e), st1, []. simpl.
      split_and!; try done. intros _. by exists i, instrs.
Qed.

(** C1 (amended).  From an executor without records, a sequence of record
    instructions, none of which names its attribute [name], runs to its
    end or up to the first instruction whose variable is not bound.  The
    output then holds the payloads that were recorded, merged: one record
    for each resource name, in the order the names were first recorded,
    each carrying its name and, for every attribute, the value written
    last. *)
Theorem recorded_resources_merge (messages : gmap nat string) (pos : nat)
    (instrs : list Instruction) st :
  Forall (fun i => records_attribute i = true) instrs ->
  records st = [] ->
  _resource_value_index st = [] ->
  resource_values st = [] ->
  exists run rest r st' payloads,
    run_from messages pos instrs st = (r, st')
    /\ instrs = run ++ rest
    /\ (r = Ok tt -> rest = [])
    /\ (is_ok r = false ->
        exists i rest', rest = i :: rest' /\ recorded (store_view st) i = None)
    /\ Forall2 (fun i np => recorded (store_view st) i = Some np) run payloads
    /\ output st' = map snd (merged payloads)
    /\ map fst (merged payloads) = first_seen (map fst payloads)
    /\ NoDup (map fst (merged payloads))
    /\ Forall (fun nr =>
                 Dict.get (snd nr) "name" = Some (VStr (fst nr))
                 /\ forall a, Dict.get (snd nr) a = last_written payloads (fst nr) a)
         (merged payloads).
Proof.
  intros Hall Hrec Hix Hrv.
  destruct (execute_from_records messages instrs pos st [] Hall)
    as (run & rest & r & st' & payloads & Hrun & -> & Hok & Herr & Hpay & Hinv).
  { by unfold holds_records. }
  exists run, rest, r, st', payloads. split_and!; try done.
  - by apply holds_records_output.
  - apply merged_names.
  - rewrite merged_names. apply first_seen_NoDup.
  - assert (Hpayloads : Forall (fun np => NoDup (map fst (snd np))
              /\ Dict.get (snd np) "name" = Some (VStr (fst np))) payloads).
    { apply Forall_app in Hall as [Hall _]. clear Hrun Hinv Hok Herr.
      induction Hpay as [|i np run payloads Hi _ IHp]; [constructor|].
      apply Forall_cons in Hall as [Hattr Hall]. constructor; [|by apply IHp].
      destruct i as [| | |rn rt a vn|rn rt a v| | |]; try done; simpl in Hattr;
        apply negb_true_iff, String.eqb_neq in Hattr; simpl in Hi.
      - destruct (store_view st !! vn); [|done]. injection Hi as <-. simpl.
        split; [apply record_payload_NoDup | by apply record_payload_name].
      - injection Hi as <-. simpl.
        split; [apply record_payload_NoDup | by apply record_payload_name]. }
    pose proof (merged_last_written payloads Hpayloads) as Hlast.
    rewrite Forall_forall in Hlast. apply Forall_forall. intros [n r0] Hin.
    specialize (Hlast _ Hin). simpl in *. split; [|done].
    rewrite Hlast.
    assert (Hn : n ∈ map fst payloads).
    { apply first_seen_elem. rewrite <- merged_names.
      apply list_elem_of_fmap. by exists (n, r0). }
    apply last_written_name; [|done].
    eapply Forall_impl; [exact Hpayloads|]. by intros ? [_ ?].
Qed.
End Records.

(** ** C9 and C10: the display of a dict and its spill-over *)

Lemma no_underscore_app a b : no_underscore a -> no_underscore b -> no_underscore (a +:+ b).
Proof. induction a as [|c a IH]; simpl; [done|]. intros [? ?] ?. auto. Qed.

Lemma no_underscore_middle a b : ~ no_underscore (a +:+ String "_" b).
Proof. induction a as [|c a IH]; simpl; [by intros [? _] | by intros [_ ?]]. Qed.

Lemma string_of_uint_no_underscore d : no_underscore (NilEmpty.string_of_uint d).
Proof. induction d; simpl; done. Qed.

Lemma string_length_app a b :
  String.length (a +:+ b) = String.length a + String.length b.
Proof. induction a as [|c a IH]; simpl; [done | by rewrite IH]. Qed.

Lemma string_app_inv_tail a b t : a +:+ t = b +:+ t -> a = b.
Proof.
  revert b. induction a as [|c a IH]; intros [|c' b]; simpl; intros H; [done| | |].
  - apply (f_equal String.length) in H.
    rewrite !string_length_app in H. simpl in H. rewrite ?string_length_app in H. lia.
  - apply (f_equal String.length) in H.
    rewrite !string_length_app in H. simpl in H. rewrite ?string_length_app in H. lia.
  - injection H as -> H. f_equal. by apply IH.
Qed.

Lemma append_nil_l s : "" +:+ s = s.
Proof. reflexivity. Qed.

Lemma append_cons c a s : String c a +:+ s = String c (a +:+ s).
Proof. reflexivity. Qed.

Lemma underscore_split a b d1 d2 :
  no_underscore d1 -> no_underscore d2 ->
  a +:+ String "_" d1 = b +:+ String "_" d2 -> d1 = d2.
Proof.
  intros H1 H2. revert b. induction a as [|c a IH]; intros [|c' b];
    rewrite ?append_nil_l, ?append_cons; intros H.
  - by injection H.
  - injection H as _ H. subst d1. by apply no_underscore_middle in H1.
  - injection H as _ H. subst d2. by apply no_underscore_middle in H2.
  - injection H as _ H. by apply (IH b).
Qed.

Lemma decimal_inj n m : decimal n = decimal m -> n = m.
Proof.
  unfold decimal. intros H. apply DecimalNat.Unsigned.to_uint_inj.
  apply (f_equal NilEmpty.uint_of_string) in H. rewrite !NilEmpty.usu in H.
  by injection H.
Qed.

(** Names made with different counts differ. *)
Lemma spillover_name_inj key key' n m :
  DisplayOnlyExecutor.spillover_name key n = DisplayOnlyExecutor.spillover_name key' m ->
  n = m.
Proof.
  unfold DisplayOnlyExecutor.spillover_name.
  repeat (rewrite append_nil_l || rewrite append_cons).
  intros H. injection H as H.
  apply underscore_split in H.
  - apply string_app_inv_tail in H. by apply decimal_inj.
  - apply no_underscore_app; [apply string_of_uint_no_underscore | done].
  - apply no_underscore_app; [apply string_of_uint_no_underscore | done].
Qed.

Lemma pool_names_fresh pool key :
  pool_names pool ->
  DisplayOnlyExecutor.spillover_name key (length pool) ∉ map fst pool.
Proof.
  intros Hpool Hin. rewrite map_is_fmap in Hin.
  apply list_elem_of_fmap in Hin as ([k v] & Hk & Hin). simpl in Hk.
  apply list_elem_of_lookup in Hin as [i Hi].
  destruct (Hpool i k v Hi) as [key' ->].
  apply spillover_name_inj in Hk. apply lookup_lt_Some in Hi. lia.
Qed.

Lemma pool_names_snoc pool key v :
  pool_names pool ->
  pool_names (pool ++ [(DisplayOnlyExecutor.spillover_name key (length pool), v)]).
Proof.
  intros Hpool i k w Hi. apply lookup_app_Some in Hi as [Hi|[Hge Hi]].
  - by apply (Hpool i k w).
  - destruct (i - length pool) as [|j] eqn:E; [|done].
    simpl in Hi. injection Hi as <- <-. exists key. f_equal. lia.
Qed.

Lemma pool_names_NoDup pool : pool_names pool -> NoDup (map fst pool).
Proof.
  intros Hpool. rewrite map_is_fmap. apply NoDup_alt. intros i j k Hi Hj.
  rewrite list_lookup_fmap in Hi, Hj.
  destruct (pool !! i) as [[k1 v1]|] eqn:Ei; [|done].
  destruct (pool !! j) as [[k2 v2]|] eqn:Ej; [|done].
  simpl in *. injection Hi as ->. injection Hj as ->.
  destruct (Hpool i k v1 Ei) as [key1 H1]. destruct (Hpool j k v2 Ej) as [key2 H2].
  rewrite H1 in H2. by apply spillover_name_inj in H2.
Qed.

Lemma pool_names_spilled items pool :
  pool_names pool -> pool_names (pool ++ spilled items (length pool)).
Proof.
  revert pool. induction items as [|[key value] items IH]; intros pool Hpool; simpl.
  - by rewrite app_nil_r.
  - destruct (truthy value && is_collection value).
    + rewrite cons_middle, app_assoc.
      replace (S (length pool)) with
        (length (pool ++ [(DisplayOnlyExecutor.spillover_name key (length pool), value)]))
        by (rewrite length_app; simpl; lia).
      apply IH. by apply pool_names_snoc.
    + by apply IH.
Qed.

Lemma spilled_truthy items n :
  Forall (fun kv => truthy (snd kv) = true) (spilled items n).
Proof.
  revert n. induction items as [|[key value] items IH]; intros n; simpl;
    [constructor|].
  destruct (truthy value) eqn:Ht; simpl; [|apply IH].
  destruct (is_collection value); [|apply IH].
  constructor; [done | apply IH].
Qed.

Section Display.
Variable py_str pformat : Value -> string.

Lemma format_entries_cells items : forall lines pool,
  pool_names pool ->
  DisplayOnlyExecutor.format_entries py_str items lines pool
  = (lines ++ map (fun kv => DisplayOnlyExecutor.dict_line py_str (fst kv) (snd kv))
                (cells items (length pool)),
     pool ++ spilled items (length pool)).
Proof.
  induction items as [|[key value] items IH]; intros lines pool Hpool; simpl.
  - by rewrite !app_nil_r.
  - destruct (truthy value) eqn:Ht; simpl; [|by apply IH].
    destruct (DisplayOnlyExecutor.is_long_bytes value) eqn:Hb.
    + destruct value; try done. simpl. rewrite IH by done.
      by rewrite <- app_assoc.
    + destruct (is_collection value) eqn:Hc.
      * rewrite dict_set_fresh by (by apply pool_names_fresh).
        rewrite IH by (by apply pool_names_snoc).
        rewrite length_app. simpl. rewrite Nat.add_1_r.
        by rewrite <- !app_assoc.
      * rewrite IH by done. by rewrite <- app_assoc.
Qed.

Lemma format_dict_pool d pool :
  pool_names pool ->
  snd (DisplayOnlyExecutor._format_dict py_str d pool)
  = pool ++ spilled d (length pool).
Proof.
  intros Hpool. unfold DisplayOnlyExecutor._format_dict.
  by rewrite format_entries_cells.
Qed.

Lemma write_fields_pool_names fields : forall name ui pool,
  pool_names pool ->
  pool_names (snd (DisplayOnlyExecutor.write_fields py_str name fields ui pool)).
Proof.
  induction fields as [|[key value] fields IH]; intros name ui pool Hpool; simpl;
    [done|].
  destruct value; try (by apply IH).
  pose proof (format_dict_pool items pool Hpool) as Hd.
  destruct (DisplayOnlyExecutor._format_dict py_str items pool) as [cell pool'].
  simpl in Hd. subst pool'. apply IH. by apply pool_names_spilled.
Qed.

Lemma execute_all_pool_names instrs : forall ui pool,
  pool_names pool ->
  pool_names (snd (DisplayOnlyExecutor.execute_all py_str instrs ui pool)).
Proof.
  induction instrs as [|i instrs IH]; intros ui pool Hpool; simpl; [done|].
  unfold DisplayOnlyExecutor._default_handler.
  pose proof (write_fields_pool_names (asdict i)
                (DisplayOnlyExecutor._upper_snake_case (class_name i)) ui pool Hpool)
    as Hw.
  destruct (DisplayOnlyExecutor.write_fields py_str _ (asdict i) ui pool)
    as [ui' pool'].
  by apply IH.
Qed.

Lemma write_spillover_section pool ui :
  DisplayOnlyExecutor._write_spillover pformat pool ui
  = match pool with
    | [] => ui
    | _ => (ui ++ ["Variable Pool" +:+ newline;
                   "=============" +:+ newline +:+ newline])
              ++ concat (map (fun kv => [fst kv +:+ ":" +:+ newline;
                                         pformat (snd kv) +:+ newline +:+ newline])
                           pool)
    end.
Proof.
  unfold DisplayOnlyExecutor._write_spillover.
  destruct pool as [|kv pool]; [done|].
  change (negb (truthy (VDict (kv :: pool)))) with false. cbv iota.
  generalize (kv :: pool) as l.
  generalize (ui ++ ["Variable Pool" +:+ newline;
                     "=============" +:+ newline +:+ newline]) as acc.
  intros acc l. revert acc. induction l as [|x l IH]; intros acc; simpl.
  - by rewrite app_nil_r.
  - rewrite IH. by rewrite <- app_assoc.
Qed.

(** C9 (amended).  In the display of a dict, with a pool whose names
    [_format_dict] made, a list or dict that is not empty is shown as a
    name made from its key and the number of values in the pool, and the
    pool gains exactly that name, bound to the value; the names of the
    pool stay distinct.  Bytes beyond the limit are shown as the mark
    [<bytes>] and are not put into the pool; an empty list or dict is
    shown nowhere.  The pool of a run starts empty and is written, under
    its heading, after all instructions, when it is not empty. *)
Theorem format_dict_spills (dict_value pool : list (string * Value)) :
  (pool_names pool ->
   DisplayOnlyExecutor._format_dict py_str dict_value pool
   = (join newline
        (EmptyString
           :: map (fun kv => DisplayOnlyExecutor.dict_line py_str (fst kv) (snd kv))
                (cells dict_value (length pool))),
      pool ++ spilled dict_value (length pool))
   /\ pool_names (pool ++ spilled dict_value (length pool))
   /\ NoDup (map fst (pool ++ spilled dict_value (length pool))))
  /\ (forall plan ui,
        let (ui', pool') :=
          DisplayOnlyExecutor.execute_all py_str (instructions plan)
            (ui ++ ["Plan" +:+ newline; "====" +:+ newline +:+ newline]) [] in
        pool_names pool'
        /\ DisplayOnlyExecutor.execute py_str pformat plan ui
           = match pool' with
             | [] => ui'
             | _ => (ui' ++ ["Variable Pool" +:+ newline;
                             "=============" +:+ newline +:+ newline])
                        ++ concat (map (fun kv =>
                                          [fst kv +:+ ":" +:+ newline;
                                           pformat (snd kv) +:+ newline +:+ newline])
                                     pool')
             end).
Proof.
  split.
  - intros Hpool. split_and!.
    + unfold DisplayOnlyExecutor._format_dict. by rewrite format_entries_cells.
    + by apply pool_names_spilled.
    + by apply pool_names_NoDup, pool_names_spilled.
  - intros plan ui. unfold DisplayOnlyExecutor.execute.
    pose proof (execute_all_pool_names (instructions plan)
                  (ui ++ ["Plan" +:+ newline; "====" +:+ newline +:+ newline]) []) as Hp.
    destruct (DisplayOnlyExecutor.execute_all py_str (instructions plan) _ [])
      as [ui' pool'].
    split; [apply Hp; by intros i k v Hi | apply write_spillover_section].
Qed.

Lemma format_entries_filter items : forall lines pool,
  DisplayOnlyExecutor.format_entries py_str items lines pool
  = DisplayOnlyExecutor.format_entries py_str
      (List.filter (fun kv => truthy (snd kv)) items) lines pool.
Proof.
  induction items as [|[key value] items IH]; intros lines pool; simpl; [done|].
  destruct (truthy value) eqn:Ht; simpl; [|by apply IH].
  rewrite Ht. simpl.
  destruct (is_collection
              (if DisplayOnlyExecutor.is_long_bytes value then VStr "<bytes>"
               else value)); apply IH.
Qed.

Lemma format_dict_filter d pool :
  DisplayOnlyExecutor._format_dict py_str d pool
  = DisplayOnlyExecutor._format_dict py_str
      (List.filter (fun kv => truthy (snd kv)) d) pool.
Proof. unfold DisplayOnlyExecutor._format_dict. by rewrite format_entries_filter. Qed.

(** C10.  An entry of a dict whose value is false ([None], [False], zero,
    an empty string, bytes, list or dict) leaves no trace: [_format_dict]
    returns the lines and the pool it returns for the dict without the
    entry, and so does the display of an instruction's attribute that
    holds the dict; what goes into the pool is never false. *)
Theorem format_dict_omits_falsy (dict_value pool : list (string * Value)) :
  DisplayOnlyExecutor._format_dict py_str dict_value pool
  = DisplayOnlyExecutor._format_dict py_str
      (List.filter (fun kv => truthy (snd kv)) dict_value) pool
  /\ (forall pre key value post,
        dict_value = pre ++ (key, value) :: post ->
        truthy value = false ->
        DisplayOnlyExecutor._format_dict py_str dict_value pool
        = DisplayOnlyExecutor._format_dict py_str (pre ++ post) pool)
  /\ (forall instruction_name key rest ui,
        DisplayOnlyExecutor.write_fields py_str instruction_name
          ((key, VDict dict_value) :: rest) ui pool
        = DisplayOnlyExecutor.write_fields py_str instruction_name
            ((key, VDict (List.filter (fun kv => truthy (snd kv)) dict_value)) :: rest)
            ui pool)
  /\ (forall n, Forall (fun kv => truthy (snd kv) = true) (spilled dict_value n)).
Proof.
  split_and!.
  - apply format_dict_filter.
  - intros pre key value post -> Hfalse.
    rewrite format_dict_filter, (format_dict_filter (pre ++ post)).
    rewrite !List.filter_app. simpl. by rewrite Hfalse.
  - intros name key rest ui. simpl. by rewrite format_dict_filter.
  - apply spilled_truthy.
Qed.
End Display.

Lemma format_dict_spills_witness :
  let dict_value := [("FunctionName", VStr "app-dev");
                     ("Tags", VDict [("stage", VStr "dev")]);
                     ("MemorySize", VInt 128);
                     ("Layers", VList [VStr "arn:aws:lambda:l1"])] in
  DisplayOnlyExecutor._format_dict str_fragment dict_value []
  = (join newline
       [EmptyString;
        DisplayOnlyExecutor.dict_line str_fragment "FunctionName" (VStr "app-dev");
        DisplayOnlyExecutor.dict_line str_fragment "Tags" (VStr "${TAGS_0}");
        DisplayOnlyExecutor.dict_line str_fragment "MemorySize" (VInt 128);
        DisplayOnlyExecutor.dict_line str_fragment "Layers" (VStr "${LAYERS_1}")],
     [("${TAGS_0}", VDict [("stage", VStr "dev")]);
      ("${LAYERS_1}", VList [VStr "arn:aws:lambda:l1"])]).
Proof.
  intros dict_value.
  refine (proj1 (proj1 (format_dict_spills str_fragment str_fragment dict_value []) _)).
  intros i k v Hi. by rewrite lookup_nil in Hi.
Defined.

(** C9, as stated, fails: bytes beyond the limit are shown as [<bytes>],
    with no name and no entry in the pool, and an empty dict is a collection
    that is shown nowhere. *)
Lemma format_dict_spills_counterexample :
  let long_bytes := VBytes (repeat x61 31) in
  DisplayOnlyExecutor.is_long_bytes long_bytes = true
  /\ DisplayOnlyExecutor._format_dict str_fragment [("ZipFile", long_bytes)] []
     = (join newline
          [EmptyString;
           DisplayOnlyExecutor.dict_line str_fragment "ZipFile" (VStr "<bytes>")],
        [])
  /\ DisplayOnlyExecutor._format_dict str_fragment [("Tags", VDict [])] []
     = (EmptyString, []).
Proof.
  intros long_bytes. split_and!; vm_compute; reflexivity.
Qed.

Lemma recorded_resources_merge_witness :
  let st := with_variables (<["v" := 0]> ∅) (with_objects [VStr "Y"] (new_executor 0)) in
  let arn := RecordResourceValue "f1" "lambda_function" "arn" (VStr "X") in
  let role := RecordResourceVariable "f1" "lambda_function" "role" "v" in
  let plan := {| instructions := [arn; role]; messages := ∅ |} in
  exists st',
    execute str_format_fragment client_fragment jmespath_fragment plan st = (Ok tt, st')
    /\ output st' = [[("name", VStr "f1"); ("resource_type", VStr "lambda_function");
                      ("arn", VStr "X"); ("role", VStr "Y")]].
Proof.
  intros st arn role plan.
  destruct (recorded_resources_merge str_format_fragment client_fragment
              jmespath_fragment ∅ 0 (instructions plan) st)
    as (run & rest & r & st' & payloads & Hrun & _); [| reflexivity..|].
  - repeat constructor.
  - exists (snd (execute str_format_fragment client_fragment jmespath_fragment plan st)).
    split; vm_compute; reflexivity.
Defined.

(** C1, as stated, fails when an instruction names its attribute [name]:
    the attribute replaces the resource name in the payload, so that two
    resource names end in one record, under the second name. *)
Lemma recorded_resources_merge_counterexample :
  let first := RecordResourceValue "f1" "lambda_function" "name" (VStr "f2") in
  let second := RecordResourceValue "f2" "lambda_function" "arn" (VStr "X") in
  let plan := {| instructions := [first; second]; messages := ∅ |} in
  let st' := snd (execute str_format_fragment client_fragment jmespath_fragment
                    plan (new_executor 0)) in
  output st' = [[("name", VStr "f2"); ("resource_type", VStr "lambda_function");
                 ("arn", VStr "X")]]
  /\ map (fun r => Dict.get r "name") (output st')
     <> [Some (VStr "f1"); Some (VStr "f2")].
Proof.
  intros first second plan st'. split; vm_compute; [reflexivity | discriminate].
Qed.

Lemma format_dict_omits_falsy_witness :
  DisplayOnlyExecutor._format_dict str_fragment
    [("FunctionName", VStr "app-dev"); ("Tags", VDict []); ("Timeout", VInt 60)] []
  = DisplayOnlyExecutor._format_dict str_fragment
      [("FunctionName", VStr "app-dev"); ("Timeout", VInt 60)] [].
Proof.
  refine (proj1 (proj2 (format_dict_omits_falsy str_fragment _ []))
            [("FunctionName", VStr "app-dev")] "Tags" (VDict [])
            [("Timeout", VInt 60)] _ _); reflexivity.
Defined.

(** * Further properties *)

(** ** Dictionaries and the index *)

Lemma key_eqb_refl key : hashable key = true -> key_eqb key key = true.
Proof.
  destruct key as [ |b|n|s|b| | |s|t ns|[m]]; simpl; try done; intros _.
  - by destruct b.
  - apply Z.eqb_refl.
  - apply String.eqb_refl.
  - by apply bool_decide_eq_true_2.
  - apply String.eqb_refl.
  - rewrite String.eqb_refl. by apply bool_decide_eq_true_2.
  - apply String.eqb_refl.
Qed.

Lemma index_get_snoc index key l :
  hashable key = true ->
  index_get index key = None -> index_get (index ++ [(key, l)]) key = Some l.
Proof.
  intros Hh. induction index as [|[k l'] index IH]; simpl.
  - by rewrite key_eqb_refl.
  - destruct (key_eqb k key); [done | apply IH].
Qed.

Lemma dict_set_same {A} (d : list (string * A)) k v :
  Dict.get d k = Some v -> Dict.set d k v = d.
Proof.
  induction d as [|[k' v'] d IH]; simpl; [done|].
  destruct (String.eqb k' k) eqn:E.
  - by intros [= ->].
  - intros H. by rewrite IH.
Qed.

Lemma dict_get_NoDup {A} (d : list (string * A)) k v :
  NoDup (map fst d) -> (k, v) ∈ d -> Dict.get d k = Some v.
Proof.
  induction d as [|[k' v'] d IH]; simpl; intros Hnd Hin; [by apply elem_of_nil in Hin|].
  apply NoDup_cons in Hnd as [Hk' Hnd].
  apply elem_of_cons in Hin as [[= -> ->]|Hin]; [by rewrite String.eqb_refl|].
  destruct (String.eqb k' k) eqn:E; [|by apply IH].
  apply String.eqb_eq in E. subst k'. destruct Hk'.
  rewrite map_is_fmap. apply list_elem_of_fmap. by exists (k, v).
Qed.

Lemma dict_update_absorbed (d other : list (string * Value)) :
  (forall k v, (k, v) ∈ other -> Dict.get d k = Some v) -> Dict.update d other = d.
Proof.
  unfold Dict.update. induction other as [|[k v] other IH]; simpl; intros H; [done|].
  rewrite dict_set_same by (apply H; left). apply IH.
  intros k' v' Hin. apply H. by right.
Qed.

Lemma dict_update_twice (d other : list (string * Value)) :
  NoDup (map fst other) ->
  Dict.update (Dict.update d other) other = Dict.update d other.
Proof.
  intros Hnd. apply dict_update_absorbed. intros k v Hin.
  by rewrite dict_get_update, (dict_get_NoDup other k v).
Qed.



Lemma elem_of_concat_map {A B} (f : A -> list B) (l : list A) x y :
  y ∈ l -> x ∈ f y -> x ∈ concat (map f l).
Proof.
  induction l as [|z l IH]; intros Hy Hx; [by apply elem_of_nil in Hy|].
  simpl. apply elem_of_app. apply elem_of_cons in Hy as [->|Hy]; [by left|].
  right. by apply IH.
Qed.





(** ** What the handlers leave alone *)

Section Frames.
Variable str_format : string -> list (string * Value) -> result string.
Context {C : Type}.
Variable client_method :
  string -> option (list (string * Value) -> C -> result Value * C).
Variable jmespath_search : string -> Value -> result Value.

Implicit Types st : Executor C.

#[local] Instance same_records_preorder : PreOrder (@same_records C).
Proof.
  split; [by intros st|].
  intros a b c (H1 & H2 & H3) (H4 & H5 & H6). unfold same_records. by rewrite H4, H5, H6.
Qed.

#[local] Instance same_client_preorder : PreOrder (@same_client C).
Proof. split; [by intros st|]. intros a b c H1 H2. unfold same_client in *. congruence. Qed.

#[local] Instance same_ui_preorder : PreOrder (@same_ui C).
Proof. split; [by intros st|]. intros a b c H1 H2. unfold same_ui in *. congruence. Qed.

#[local] Instance same_store_preorder : PreOrder (@same_store C).
Proof.
  split; [by intros st|].
  intros a b c [H1 H2] [H3 H4]. unfold same_store. by rewrite H3, H4.
Qed.

#[local] Instance store_extends_preorder : PreOrder (@store_extends C).
Proof.
  split; [by intros st|].
  intros a b c (H1 & H2 & H3) (H4 & H5 & H6). split_and!; [by etrans | by etrans | auto].
Qed.

#[local] Instance records_kept_preorder written : PreOrder (@records_kept C written).
Proof.
  split; [by intros st|].
  intros a b c (Hi & Hv & Hl & Hr & Hok) (Hi' & Hv' & Hl' & Hr' & Hok').
  split_and!; [by etrans | by etrans | lia | | auto].
  intros l Hlt. destruct (Hr l Hlt) as [Hk Hg].
  destruct (Hr' l ltac:(lia)) as [Hk' Hg']. split; [by etrans|].
  intros k Hk0. by rewrite Hg', Hg.
Qed.

Lemma preserves_bind {A B} (R : Executor C -> Executor C -> Prop) `{!PreOrder R}
    (m : M C A) (k : A -> M C B) :
  preserves R m -> (forall a, preserves R (k a)) -> preserves R (bind m k).
Proof.
  intros Hm Hk st. unfold bind. specialize (Hm st).
  destruct (m st) as [[a|e] st1]; simpl in *; [|done].
  etrans; [exact Hm | apply Hk].
Qed.

Lemma preserves_reads {A} (R : Executor C -> Executor C -> Prop) `{!PreOrder R}
    (m : M C A) :
  reads m -> preserves R m.
Proof. intros Hm st. by rewrite Hm. Qed.

Lemma reads_ret {A} (a : A) : reads (C := C) (ret a).
Proof. by intros st. Qed.
Lemma reads_raise {A} e : reads (C := C) (raise (A := A) e).
Proof. by intros st. Qed.
Lemma reads_lift {A} (r : result A) : reads (C := C) (lift r).
Proof. by intros st. Qed.
Lemma reads_lookup_object name : reads (C := C) (lookup_object name).
Proof. intros st. unfold lookup_object. by case_match. Qed.
Lemma reads_lookup_value name : reads (C := C) (lookup_value name).
Proof. by intros st. Qed.
Lemma reads_resolve v : reads (C := C) (resolve str_format v).
Proof. by intros st. Qed.
Lemma reads_resolve_variables i : reads (C := C) (_resolve_variables str_format i).
Proof.
  intros st. unfold _resolve_variables, raise. destruct i; try done. by case_match.
Qed.
Lemma reads_default_handler i : reads (C := C) (_default_handler i).
Proof. by intros st. Qed.

Lemma reads_bind {A B} (m : M C A) (k : A -> M C B) :
  reads m -> (forall a, reads (k a)) -> reads (bind m k).
Proof.
  intros Hm Hk st. unfold bind. specialize (Hm st).
  destruct (m st) as [[a|e] st1]; simpl in *; subst; [apply Hk | done].
Qed.

Lemma reads_resolve_object_variable name : reads (C := C) (resolve_object str_format (VVariable name)).
Proof. apply reads_lookup_object. Qed.

(** The primitives that write, each on what it leaves alone. *)
Lemma setitem_frames name l :
  preserves same_records (setitem (C := C) name l)
  /\ preserves same_client (setitem (C := C) name l)
  /\ preserves same_ui (setitem (C := C) name l).
Proof. by split_and!; intros st. Qed.

Lemma new_object_frames v :
  preserves same_records (new_object (C := C) v)
  /\ preserves same_client (new_object (C := C) v)
  /\ preserves same_ui (new_object (C := C) v).
Proof. by split_and!; intros st. Qed.

Lemma call_frames method kwargs :
  preserves same_records (call (C := C) method kwargs)
  /\ preserves same_ui (call (C := C) method kwargs)
  /\ preserves same_store (call (C := C) method kwargs).
Proof.
  split_and!; intros st; unfold call, raise; destruct kwargs; try done;
    simpl; by destruct (method items (client st)).
Qed.

Lemma add_to_deployed_values_frames payload :
  preserves same_client (_add_to_deployed_values (C := C) payload)
  /\ preserves same_ui (_add_to_deployed_values (C := C) payload)
  /\ preserves same_store (_add_to_deployed_values (C := C) payload).
Proof.
  split_and!; intros st; unfold _add_to_deployed_values, raise;
    repeat case_match; by simpl.
Qed.

Lemma resolve_object_frames v :
  preserves same_records (resolve_object (C := C) str_format v)
  /\ preserves same_client (resolve_object (C := C) str_format v)
  /\ preserves same_ui (resolve_object (C := C) str_format v).
Proof.
  split_and!; intros st; destruct v; simpl;
    unfold bind, resolve, lookup_object, new_object; repeat case_match; by simpl.
Qed.

Local Ltac reads_tac :=
  repeat first
    [ apply reads_ret | apply reads_raise | apply reads_lift
    | apply reads_lookup_object | apply reads_lookup_value | apply reads_resolve
    | apply reads_resolve_variables | apply reads_default_handler
    | (apply reads_bind; [|intros ?])
    | solve [intros ?; simpl; repeat case_match; done] ].

Local Ltac frame_tac :=
  repeat first
    [ (apply preserves_reads; [typeclasses eauto | solve [reads_tac]])
    | apply setitem_frames | apply new_object_frames | apply call_frames
    | apply add_to_deployed_values_frames | apply resolve_object_frames
    | (apply preserves_bind; [typeclasses eauto | | intros ?])
    | case_match ].

(** No handler writes to the UI. *)
Lemma handler_same_ui name handler instruction :
  executor_getattr str_format client_method jmespath_search name = Some handler ->
  preserves same_ui (handler instruction).
Proof.
  unfold executor_getattr. intros H.
  repeat case_match; try done; injection H as <-;
    destruct instruction; simpl; frame_tac.
Qed.

(** Only the two record handlers touch the records: the handler looked
    up for an instruction leaves them alone unless it is one of the two. *)
Lemma handler_same_records handler instruction :
  executor_getattr str_format client_method jmespath_search
    (handler_name instruction) = Some handler ->
  reaches_record_handler instruction = false ->
  preserves same_records (handler instruction).
Proof.
  unfold executor_getattr, reaches_record_handler. intros H Hi.
  apply orb_false_iff in Hi as [H1 H2]. rewrite H1, H2 in H. clear H1 H2.
  repeat case_match; try done; injection H as <-;
    destruct instruction; simpl; frame_tac.
Qed.

(** Only [_do_apicall] touches the client. *)
Lemma handler_same_client handler instruction :
  executor_getattr str_format client_method jmespath_search
    (handler_name instruction) = Some handler ->
  reaches_apicall_handler instruction = false ->
  preserves same_client (handler instruction).
Proof.
  unfold executor_getattr, reaches_apicall_handler. intros H Hi.
  rewrite Hi in H. clear Hi.
  repeat case_match; try done; injection H as <-;
    destruct instruction; simpl; frame_tac.
Qed.

(** The record handlers leave the variable store alone. *)
Lemma handler_same_store name handler instruction :
  executor_getattr str_format client_method jmespath_search name = Some handler ->
  is_record instruction = true ->
  preserves same_store (handler instruction).
Proof.
  unfold executor_getattr. intros H Hi.
  repeat case_match; try done; injection H as <-;
    destruct instruction; simpl; try done; frame_tac.
Qed.


(** ** The store stays sound, the records stay listed *)

Lemma same_store_extends st st' : same_store st st' -> store_extends st st'.
Proof.
  intros [Hv Ho]. unfold store_extends, store_ok. rewrite Hv, Ho. by split_and!.
Qed.


Lemma setitem_extends name l st :
  l < length (objects st) -> store_extends st (snd (setitem name l st)).
Proof.
  intros Hl. unfold store_extends, store_ok. simpl. split_and!; [done | |].
  - rewrite dom_insert. set_solver.
  - intros Hok n l'. destruct (decide (name = n)) as [->|Hne].
    + rewrite lookup_insert_eq. intros [= <-]. done.
    + rewrite lookup_insert_ne by done. apply Hok.
Qed.

Lemma bind_new_object_extends name v :
  preserves store_extends (bind (C := C) (new_object v) (fun l => setitem name l)).
Proof.
  intros st. unfold bind. simpl.
  unfold store_extends, store_ok. simpl. split_and!.
  - by apply prefix_app_r.
  - rewrite dom_insert. set_solver.
  - intros Hok n l'. rewrite length_app. simpl.
    destruct (decide (name = n)) as [->|Hne].
    + rewrite lookup_insert_eq. intros [= <-]. lia.
    + rewrite lookup_insert_ne by done. intros Hn. specialize (Hok _ _ Hn). lia.
Qed.

Lemma bind_lookup_object_extends name from :
  preserves store_extends (bind (C := C) (lookup_object from) (fun l => setitem name l)).
Proof.
  intros st. unfold bind, lookup_object.
  destruct (variables st !! from) as [l|] eqn:E; [|done].
  unfold store_extends, store_ok. simpl. split_and!; [done | |].
  - rewrite dom_insert. set_solver.
  - intros Hok n l'. destruct (decide (name = n)) as [->|Hne].
    + rewrite lookup_insert_eq. intros [= <-]. by eapply Hok.
    + rewrite lookup_insert_ne by done. apply Hok.
Qed.

Lemma bind_resolve_object_extends name v :
  preserves store_extends
    (bind (C := C) (resolve_object str_format v) (fun l => setitem name l)).
Proof.
  assert (H : forall v', preserves store_extends
                (bind (C := C) (bind (resolve str_format v') new_object)
                   (fun l => setitem name l))).
  { intros v' st. unfold bind at 1 2, resolve.
    destruct (resolve_variables str_format v' (store_view st)) as [r|e]; [|done].
    exact (bind_new_object_extends name r st). }
  destruct v; simpl; first [apply bind_lookup_object_extends | apply H].
Qed.

Lemma call_extends method kwargs : preserves store_extends (call (C := C) method kwargs).
Proof. intros st. apply same_store_extends, call_frames. Qed.

Lemma add_to_deployed_values_extends payload :
  preserves store_extends (_add_to_deployed_values (C := C) payload).
Proof. intros st. apply same_store_extends, add_to_deployed_values_frames. Qed.

Local Ltac extends_tac :=
  repeat first
    [ (apply preserves_reads; [typeclasses eauto | solve [reads_tac]])
    | apply bind_new_object_extends | apply bind_lookup_object_extends
    | apply bind_resolve_object_extends
    | apply call_extends | apply add_to_deployed_values_extends
    | (apply preserves_bind; [typeclasses eauto | | intros ?])
    | case_match ].

Lemma handler_store_extends name handler instruction :
  executor_getattr str_format client_method jmespath_search name = Some handler ->
  preserves store_extends (handler instruction).
Proof.
  unfold executor_getattr. intros H.
  repeat case_match; try done; injection H as <-;
    destruct instruction; simpl; extends_tac.
Qed.




(** ** From the handlers to a run *)

Abbreviation run_step := (step str_format client_method jmespath_search).
Abbreviation run_from := (execute_from str_format client_method jmespath_search).
Abbreviation run := (execute str_format client_method jmespath_search).

(** A relation that writing to the UI keeps, and that every handler
    reached by the instructions keeps, is kept by the run. *)
Lemma run_from_preserves (R : Executor C -> Executor C -> Prop) `{!PreOrder R}
    (ok : Instruction -> Prop) messages instrs : forall pos,
  (forall msg, preserves R (ui_write msg)) ->
  (forall handler i,
     executor_getattr str_format client_method jmespath_search (handler_name i)
     = Some handler ->
     ok i -> preserves R (handler i)) ->
  Forall ok instrs ->
  preserves R (run_from messages pos instrs).
Proof.
  intros pos Hui Hh Hall. revert pos.
  induction Hall as [|i instrs Hi _ IH]; intros pos; simpl.
  - by apply preserves_reads, reads_ret.
  - apply preserves_bind; [done | | intros; apply IH].
    unfold step. apply preserves_bind; [done | | intros _].
    + destruct (messages !! pos); [apply Hui | by apply preserves_reads, reads_ret].
    + destruct (executor_getattr _ _ _ _) as [handler|] eqn:E; simpl.
      * by eapply Hh.
      * by apply preserves_reads, reads_default_handler.
Qed.


Lemma ui_write_frames msg :
  preserves same_records (ui_write (C := C) msg)
  /\ preserves same_client (ui_write (C := C) msg)
  /\ preserves same_store (ui_write (C := C) msg)
  /\ preserves store_extends (ui_write (C := C) msg).
Proof.
  split_and!; by intros st.
Qed.


(** X1.  A plan none of whose instructions is handed to a record handler
    (no instruction whose class is called recordresourcevariable or
    recordresourcevalue in lower case) leaves the resource records as they
    are, whether it runs to its end or stops at an error. *)
Theorem run_leaves_records (plan : Plan) st :
  Forall (fun i => reaches_record_handler i = false) (instructions plan) ->
  same_records st (snd (run plan st))
  /\ output (snd (run plan st)) = output st.
Proof.
  intros Hall.
  assert (H : same_records st (snd (run plan st))).
  { apply (run_from_preserves same_records (fun i => reaches_record_handler i = false));
      [apply ui_write_frames | | done].
    intros handler i. apply handler_same_records. }
  split; [done|]. destruct H as (Hr & _ & Hv). unfold output, record_at.
  by rewrite Hr, Hv.
Qed.

(** X2.  A plan of record instructions only leaves the variable store as
    it is: every variable reads as before. *)
Theorem run_records_leaves_store (plan : Plan) st :
  Forall (fun i => is_record i = true) (instructions plan) ->
  same_store st (snd (run plan st))
  /\ forall name, read_var (snd (run plan st)) name = read_var st name.
Proof.
  intros Hall.
  assert (H : same_store st (snd (run plan st))).
  { apply (run_from_preserves same_store (fun i => is_record i = true));
      [apply ui_write_frames | | done].
    intros handler i. apply handler_same_store. }
  split; [done|]. destruct H as [Hv Ho]. intros name.
  unfold read_var, store_view, deref. by rewrite Hv, Ho.
Qed.

(** X3.  A plan none of whose instructions is handed to [_do_apicall] (no
    instruction whose class is called apicall in lower case) never calls
    the client. *)
Theorem run_leaves_client (plan : Plan) st :
  Forall (fun i => reaches_apicall_handler i = false) (instructions plan) ->
  client (snd (run plan st)) = client st.
Proof.
  intros Hall.
  apply (run_from_preserves same_client (fun i => reaches_apicall_handler i = false));
    [apply ui_write_frames | | done].
  intros handler i. apply handler_same_client.
Qed.

(** X4.  Whatever the plan and however the run ends, the objects of the
    store are kept, no name is unbound, and a store in which every name is
    bound to an existing object stays so; from a new executor this holds
    at the end of every run. *)
Theorem run_store_extends (plan : Plan) :
  (forall st, store_extends st (snd (run plan st)))
  /\ (forall c, store_ok (snd (run plan (new_executor c)))).
Proof.
  assert (H : forall st, store_extends st (snd (run plan st))).
  { intros st.
    apply (run_from_preserves store_extends (fun _ => True));
      [apply ui_write_frames | | by apply Forall_true].
    intros handler i Hn _. by eapply handler_store_extends. }
  split; [done|]. intros c. destruct (H (new_executor c)) as (_ & _ & Hok).
  apply Hok. intros name l. simpl. by rewrite lookup_empty.
Qed.



Lemma step_ui messages pos i st :
  ui (snd (run_step messages pos i st))
  = ui st ++ match messages !! pos with Some m => [m] | None => [] end.
Proof.
  unfold step, bind.
  assert (Hh : forall st0, ui (snd (default _default_handler
                 (executor_getattr str_format client_method jmespath_search
                    ("_do_" +:+ lower (class_name i))) i st0)) = ui st0).
  { intros st0. destruct (executor_getattr _ _ _ _) as [handler|] eqn:E; simpl; [|done].
    apply (handler_same_ui _ handler i E st0). }
  destruct (messages !! pos) as [m|]; simpl.
  - by rewrite Hh.
  - by rewrite Hh, app_nil_r.
Qed.

Lemma announced_S messages pos n :
  announced messages pos (S n)
  = announced messages pos n
    ++ match messages !! (pos + n) with Some m => [m] | None => [] end.
Proof.
  unfold announced. rewrite seq_S, omap_app. simpl.
  by destruct (messages !! (pos + n)).
Qed.

Lemma run_from_ui messages pre : forall pos st st1,
  run_from messages pos pre st = (Ok tt, st1) ->
  ui st1 = ui st ++ announced messages pos (length pre).
Proof.
  induction pre as [|i pre IH] using rev_ind; intros pos st st1 Hrun.
  - injection Hrun as <-. unfold announced. simpl. by rewrite app_nil_r.
  - rewrite execute_from_app in Hrun.
    destruct (run_from messages pos pre st) as [[[]|e] st0] eqn:Hpre; [|done].
    simpl in Hrun. unfold bind in Hrun.
    pose proof (step_ui messages (pos + length pre) i st0) as Hui.
    destruct (run_step messages (pos + length pre) i st0) as [[[]|e] st2]; [|done].
    injection Hrun as <-. simpl in Hui.
    rewrite length_app, Nat.add_1_r, announced_S, Hui, (IH _ _ _ Hpre).
    by rewrite <- app_assoc.
Qed.

(** X6.  What a run writes to the UI is the messages of the instructions
    it reached, in the order of the plan, and nothing else.  A run that
    ends well has written the messages of all the instructions; a run
    that stops at an instruction has written the messages of the
    instructions before it and its own, which is written before the
    instruction runs; and a run that raises has stopped at one of its
    instructions in this way. *)
Theorem run_announces (messages : gmap nat string) (pos : nat) :
  (forall instrs st st',
     run_from messages pos instrs st = (Ok tt, st') ->
     ui st' = ui st ++ announced messages pos (length instrs))
  /\ (forall pre i post st st1 e st2,
        run_from messages pos pre st = (Ok tt, st1) ->
        run_step messages (pos + length pre) i st1 = (Err e, st2) ->
        run_from messages pos (pre ++ i :: post) st = (Err e, st2)
        /\ ui st2 = ui st ++ announced messages pos (S (length pre)))
  /\ (forall instrs st e st',
        run_from messages pos instrs st = (Err e, st') ->
        exists pre i post st1,
          instrs = pre ++ i :: post
          /\ run_from messages pos pre st = (Ok tt, st1)
          /\ run_step messages (pos + length pre) i st1 = (Err e, st')).
Proof.
  split_and!.
  - intros instrs st st'. apply run_from_ui.
  - intros pre i post st st1 e st2 Hpre Hstep. split.
    + rewrite execute_from_app, Hpre. simpl. unfold bind. by rewrite Hstep.
    + pose proof (step_ui messages (pos + length pre) i st1) as Hui.
      rewrite Hstep in Hui. simpl in Hui.
      rewrite announced_S, Hui, (run_from_ui _ _ _ _ _ Hpre). by rewrite <- app_assoc.
  - intros instrs. revert pos.
    induction instrs as [|i instrs IH]; intros pos st e st' Hrun; [done|].
    simpl in Hrun. unfold bind in Hrun.
    destruct (run_step messages pos i st) as [[[]|e1] st1] eqn:Hstep.
    + destruct (IH _ _ _ _ Hrun) as (pre & i0 & post & st0 & -> & Hpre & Hi0).
      exists (i :: pre), i0, post, st0. split_and!; [done | |].
      * simpl. unfold bind. by rewrite Hstep.
      * simpl. by replace (pos + S (length pre)) with (S pos + length pre) by lia.
    + injection Hrun as -> ->. exists [], i, instrs, st. split_and!; [done | done |].
      simpl. by rewrite Nat.add_0_r.
Qed.

End Frames.

(** ** The handlers one by one *)

Section Handlers.
Variable str_format : string -> list (string * Value) -> result string.
Context {C : Type}.
Variable client_method :
  string -> option (list (string * Value) -> C -> result Value * C).
Variable jmespath_search : string -> Value -> result Value.

Implicit Types st : Executor C.

Lemma read_var_new_object st name v :
  read_var (with_variables (<[name := length (objects st)]> (variables st))
              (with_objects (objects st ++ [v]) st)) name = Some v.
Proof.
  unfold read_var, store_view. rewrite lookup_fmap. simpl.
  rewrite lookup_insert_eq. simpl. unfold deref. simpl.
  by rewrite list_lookup_middle.
Qed.

Lemma read_var_new_object_ne st name v other :
  store_ok st -> other <> name ->
  read_var (with_variables (<[name := length (objects st)]> (variables st))
              (with_objects (objects st ++ [v]) st)) other = read_var st other.
Proof.
  intros Hok Hne. unfold read_var, store_view. rewrite !lookup_fmap. simpl.
  rewrite lookup_insert_ne by done.
  destruct (variables st !! other) as [l|] eqn:E; [|done]. simpl.
  unfold deref. simpl. by rewrite lookup_app_l by (by eapply Hok).
Qed.

(** X7.  [APICall]: when the params resolve to a mapping and the client
    has the method, the method is called once, with the resolved params.
    If it returns, the result is bound to [output_var] (and, in a sound
    store, every other variable reads as before), or the store is left
    alone when there is no [output_var]; if it raises, the error comes out
    as it is and the store is left alone. *)
Theorem apicall_calls_client st (method_name : string) (params : Value)
    (kwargs : list (string * Value))
    (method : list (string * Value) -> C -> result Value * C) :
  resolve_variables str_format params (store_view st) = Ok (VDict kwargs) ->
  client_method method_name = Some method ->
  (forall returned c output_var,
     method kwargs (client st) = (Ok returned, c) ->
     exists st',
       _do_apicall str_format client_method
         (APICall method_name params (Some output_var)) st = (Ok tt, st')
       /\ client st' = c
       /\ read_var st' output_var = Some returned
       /\ (store_ok st -> forall other, other <> output_var ->
                                        read_var st' other = read_var st other))
  /\ (forall returned c,
        method kwargs (client st) = (Ok returned, c) ->
        _do_apicall str_format client_method (APICall method_name params None) st
        = (Ok tt, with_client c st))
  /\ (forall e c output_var,
        method kwargs (client st) = (Err e, c) ->
        _do_apicall str_format client_method
          (APICall method_name params output_var) st
        = (Err e, with_client c st)).
Proof.
  intros Hres Hmeth. split_and!.
  - intros returned c output_var Hcall. eexists. split.
    { unfold _do_apicall, bind, _resolve_variables, lift, call.
      rewrite Hres, Hmeth, Hcall. reflexivity. }
    split_and!; [done | apply (read_var_new_object (with_client c st)) |].
    intros Hok other Hne.
    by apply (read_var_new_object_ne (with_client c st)).
  - intros returned c Hcall.
    unfold _do_apicall, bind, _resolve_variables, lift, call.
    by rewrite Hres, Hmeth, Hcall.
  - intros e c output_var Hcall.
    unfold _do_apicall, bind, _resolve_variables, lift, call.
    by rewrite Hres, Hmeth, Hcall.
Qed.

(** X8.  [APICall] makes no call when the params do not resolve, when
    they resolve to something that is not a mapping, or when the client
    lacks the method: it raises and leaves the executor as it was. *)
Theorem apicall_without_call st (method_name : string) (params : Value)
    (output_var : option string) :
  (forall e, resolve_variables str_format params (store_view st) = Err e ->
             _do_apicall str_format client_method
               (APICall method_name params output_var) st
             = (Err (set_method_name method_name e), st))
  /\ (forall v, resolve_variables str_format params (store_view st) = Ok v ->
                client_method method_name = None ->
                _do_apicall str_format client_method
                  (APICall method_name params output_var) st
                = (Err AttributeError, st))
  /\ (forall v method,
        resolve_variables str_format params (store_view st) = Ok v ->
        client_method method_name = Some method ->
        (forall kwargs, v <> VDict kwargs) ->
        _do_apicall str_format client_method
          (APICall method_name params output_var) st
        = (Err TypeError, st)).
Proof.
  split_and!.
  - intros e He. unfold _do_apicall, bind, _resolve_variables. by rewrite He.
  - intros v Hv Hm. unfold _do_apicall, bind, _resolve_variables, lift.
    by rewrite Hv, Hm.
  - intros v method Hv Hm Hnd. unfold _do_apicall, bind, _resolve_variables, lift, call.
    rewrite Hv, Hm. destruct v; try done. by destruct (Hnd items).
Qed.

(** X9.  [StoreValue]: the name reads as what the value resolves to, and,
    in a sound store, every other variable reads as before; a [Variable]
    is stored as the object it names, not as a copy.  When the value does
    not resolve, the error comes out and nothing is stored. *)
Theorem storevalue_stores st (name : string) (value : Value) :
  (forall r, resolve_variables str_format value (store_view st) = Ok r ->
     exists st',
       _do_storevalue str_format (StoreValue name value) st = (Ok tt, st')
       /\ read_var st' name = Some r
       /\ (store_ok st -> forall other, other <> name ->
                                        read_var st' other = read_var st other)
       /\ (forall x, value = VVariable x ->
                     variables st' !! name = variables st !! x
                     /\ objects st' = objects st))
  /\ (forall e, resolve_variables str_format value (store_view st) = Err e ->
                _do_storevalue str_format (StoreValue name value) st = (Err e, st)).
Proof.
  assert (Hnew : forall r,
            resolve_variables str_format value (store_view st) = Ok r ->
            (forall x, value <> VVariable x) ->
            _do_storevalue str_format (StoreValue name value) st
            = (Ok tt, with_variables (<[name := length (objects st)]> (variables st))
                        (with_objects (objects st ++ [r]) st))).
  { intros r Hr Hnv. unfold _do_storevalue, bind, resolve_object.
    destruct value; try (by destruct (Hnv name0));
      unfold bind, resolve; by rewrite Hr. }
  split.
  - intros r Hr.
    assert (Hcase : (exists x, value = VVariable x) \/ (forall x, value <> VVariable x))
      by (destruct value; eauto; by right).
    destruct Hcase as [[x ->]|Hnv'].
    + simpl in Hr. unfold getitem in Hr. rewrite store_view_lookup in Hr.
      destruct (variables st !! x) as [l|] eqn:E; [|done]. simpl in Hr.
      injection Hr as <-. eexists. split.
      { unfold _do_storevalue, bind, resolve_object, lookup_object. rewrite E.
        reflexivity. }
      split_and!; simpl.
      * unfold read_var. rewrite store_view_lookup. simpl.
        by rewrite lookup_insert_eq.
      * intros _ other Hne. unfold read_var. rewrite !store_view_lookup. simpl.
        by rewrite lookup_insert_ne.
      * intros x' [= <-]. by rewrite lookup_insert_eq.
    + rewrite (Hnew r Hr Hnv'). eexists. split; [reflexivity|].
      split_and!.
      * apply read_var_new_object.
      * intros Hok other Hne. by apply read_var_new_object_ne.
      * intros x ->. by destruct (Hnv' x).
  - intros e He. unfold _do_storevalue, bind, resolve_object.
    destruct value; try discriminate He;
      try (unfold bind, resolve; by rewrite He).
    unfold lookup_object. simpl in He. unfold getitem in He.
    rewrite store_view_lookup in He.
    destruct (variables st !! name0); [done|]. by injection He as <-.
Qed.

(** X10.  [JPSearch] binds [output_var] to what the search returns on the
    value of [input_var]; when [input_var] is not bound it raises
    [KeyError], when the search raises its error comes out, and in both
    cases nothing is stored. *)
Theorem jpsearch_searches st (input_var expression output_var : string) :
  (forall l found,
     variables st !! input_var = Some l ->
     jmespath_search expression (deref st l) = Ok found ->
     exists st',
       _do_jpsearch jmespath_search (JPSearch input_var expression output_var) st
       = (Ok tt, st')
       /\ read_var st' output_var = Some found
       /\ (store_ok st -> forall other, other <> output_var ->
                                        read_var st' other = read_var st other))
  /\ (variables st !! input_var = None ->
      _do_jpsearch jmespath_search (JPSearch input_var expression output_var) st
      = (Err (KeyError (VStr input_var)), st))
  /\ (forall l e,
        variables st !! input_var = Some l ->
        jmespath_search expression (deref st l) = Err e ->
        _do_jpsearch jmespath_search (JPSearch input_var expression output_var) st
        = (Err e, st)).
Proof.
  split_and!.
  - intros l found Hl Hs.
    exists (with_variables (<[output_var := length (objects st)]> (variables st))
              (with_objects (objects st ++ [found]) st)).
    split.
    { unfold _do_jpsearch, bind, lookup_value, getitem, lift.
      rewrite store_view_lookup, Hl. simpl. by rewrite Hs. }
    split; [apply read_var_new_object|].
    intros Hok other Hne. by apply read_var_new_object_ne.
  - intros Hl. unfold _do_jpsearch, bind, lookup_value, getitem.
    by rewrite store_view_lookup, Hl.
  - intros l e Hl Hs. unfold _do_jpsearch, bind, lookup_value, getitem, lift.
    rewrite store_view_lookup, Hl. simpl. by rewrite Hs.
Qed.

Lemma with_variables_same st : with_variables (variables st) st = st.
Proof. by destruct st. Qed.

Lemma with_records_same st : with_records (records st) st = st.
Proof. by destruct st. Qed.

(** X11.  [CopyVariable] changes the destination only: every other
    variable reads as before, copying a variable onto itself changes
    nothing, and a copy of the copy reads as the source. *)
Theorem copyvariable_frame st (from_var to_var : string) (l : nat) :
  variables st !! from_var = Some l ->
  let st' := snd (_do_copyvariable (CopyVariable from_var to_var) st) in
  (forall other, other <> to_var -> read_var st' other = read_var st other)
  /\ (from_var = to_var -> st' = st)
  /\ (forall third,
        read_var (snd (_do_copyvariable (CopyVariable to_var third) st')) third
        = read_var st from_var).
Proof.
  intros Hfrom st'.
  assert (Hst' : st' = with_variables (<[to_var := l]> (variables st)) st).
  { subst st'. unfold _do_copyvariable, bind, lookup_object. by rewrite Hfrom. }
  rewrite Hst'. split_and!.
  - intros other Hne. unfold read_var. rewrite !store_view_lookup. simpl.
    by rewrite lookup_insert_ne.
  - intros <-. rewrite insert_id by done. apply with_variables_same.
  - intros third. unfold _do_copyvariable, bind, lookup_object. simpl.
    rewrite lookup_insert_eq. simpl.
    unfold read_var. rewrite !store_view_lookup. simpl.
    by rewrite lookup_insert_eq, Hfrom.
Qed.

Abbreviation run_step := (step str_format client_method jmespath_search).
Abbreviation run_from := (execute_from str_format client_method jmespath_search).
Abbreviation run := (execute str_format client_method jmespath_search).

(** X12.  A run goes through the instructions in order and stops at the
    first one that raises: the error is that instruction's, the executor
    is as that instruction left it, and nothing after it runs.  While
    nothing raises, running a plan is running its parts one after the
    other. *)
Theorem run_stops_at_first_error (messages : gmap nat string)
    (pre : list Instruction) st st1 :
  run_from messages 0 pre st = (Ok tt, st1) ->
  (forall i post e st2,
     run_step messages (length pre) i st1 = (Err e, st2) ->
     run {| instructions := pre ++ i :: post; messages := messages |} st
     = (Err e, st2))
  /\ (forall post,
        run {| instructions := pre ++ post; messages := messages |} st
        = run_from messages (length pre) post st1).
Proof.
  intros Hpre. split.
  - intros i post e st2 Hstep. unfold execute. simpl.
    rewrite execute_from_app, Hpre. simpl. unfold bind. by rewrite Hstep.
  - intros post. unfold execute. simpl. by rewrite execute_from_app, Hpre.
Qed.

(** X13.  [parse_arn] on a string of fewer than five segments, or on an
    empty list of arguments, raises [IndexError]; when the arguments do
    not resolve, the resolver's error comes out.  Nothing is stored. *)
Theorem builtinfunction_parse_arn_errors st (args : Value) (output_var : string) :
  (forall arn rest,
     resolve_variables str_format args (store_view st) = Ok (VList (VStr arn :: rest)) ->
     length (split ":" arn) < 5 ->
     _do_builtinfunction str_format (BuiltinFunction "parse_arn" args output_var) st
     = (Err IndexError, st))
  /\ (resolve_variables str_format args (store_view st) = Ok (VList []) ->
      _do_builtinfunction str_format (BuiltinFunction "parse_arn" args output_var) st
      = (Err IndexError, st))
  /\ (forall e,
        resolve_variables str_format args (store_view st) = Err e ->
        _do_builtinfunction str_format (BuiltinFunction "parse_arn" args output_var) st
        = (Err e, st)).
Proof.
  split_and!.
  - intros arn rest Hargs Hlen.
    unfold _do_builtinfunction, bind, resolve, lift. simpl. rewrite Hargs. simpl.
    unfold part.
    destruct (split ":" arn !! 2) as [p2|] eqn:E2; [|done].
    destruct (split ":" arn !! 3) as [p3|] eqn:E3; [|done].
    destruct (split ":" arn !! 4) as [p4|] eqn:E4; [|done].
    apply lookup_lt_Some in E4. lia.
  - intros Hargs. unfold _do_builtinfunction, bind, resolve, lift. simpl.
    by rewrite Hargs.
  - intros e Hargs. unfold _do_builtinfunction, bind, resolve, lift. simpl.
    by rewrite Hargs.
Qed.

Lemma add_to_deployed_values_twice payload st :
  NoDup (map fst payload) ->
  _add_to_deployed_values payload (snd (_add_to_deployed_values payload st))
  = _add_to_deployed_values payload st.
Proof.
  intros Hnd. unfold _add_to_deployed_values, raise.
  destruct (Dict.get payload "name") as [key|]; [|done].
  destruct (hashable key) eqn:Hh; [|done].
  destruct (index_get (_resource_value_index st) key) as [l|] eqn:E; simpl.
  - rewrite E. f_equal. unfold record_at. simpl.
    destruct (decide (l < length (records st))) as [Hl|Hl].
    + rewrite list_lookup_insert_eq by done. simpl.
      rewrite list_insert_insert_eq, dict_update_twice by done. by destruct st.
    + rewrite !list_insert_ge by (rewrite ?length_insert; lia). by destruct st.
  - rewrite index_get_snoc by done. f_equal. unfold record_at. simpl.
    rewrite list_lookup_middle by done. simpl.
    rewrite dict_update_absorbed by (intros k v; by apply dict_get_NoDup).
    rewrite list_insert_id by (by apply list_lookup_middle). by destruct st.
Qed.

(** X14.  Recording is idempotent: a record instruction run a second time
    gives the outcome it gave and leaves the executor, and so the output,
    as the first run left them. *)
Theorem record_twice st (resource_name resource_type name : string) :
  (forall value,
     let i := RecordResourceValue resource_name resource_type name value in
     _do_recordresourcevalue i (snd (_do_recordresourcevalue i st))
     = _do_recordresourcevalue i st)
  /\ (forall variable_name,
        let i := RecordResourceVariable resource_name resource_type name variable_name in
        _do_recordresourcevariable i (snd (_do_recordresourcevariable i st))
        = _do_recordresourcevariable i st).
Proof.
  split.
  - intros value i. simpl. apply add_to_deployed_values_twice, record_payload_NoDup.
  - intros variable_name i. simpl. unfold bind, lookup_value.
    destruct (getitem (store_view st) variable_name) as [v|e] eqn:E; simpl; [|by rewrite E].
    assert (Hview : store_view (snd (_add_to_deployed_values
                                       (record_payload resource_name resource_type name v) st))
                    = store_view st).
    { destruct (add_to_deployed_values_frames (C := C)
                  (record_payload resource_name resource_type name v))
        as (_ & _ & Hs).
      destruct (Hs st) as [Hv Ho]. unfold store_view, deref. by rewrite Hv, Ho. }
    rewrite Hview, E. apply add_to_deployed_values_twice, record_payload_NoDup.
Qed.
End Handlers.

(** ** The resolver *)

Section ResolverMore.
Variable str_format : string -> list (string * Value) -> result string.

Lemma lookup_all_agree (s1 s2 : gmap string Value) names acc :
  (forall n, n ∈ names -> s1 !! n = s2 !! n) ->
  lookup_all s1 names acc = lookup_all s2 names acc.
Proof.
  revert acc. induction names as [|n names IH]; intros acc H; simpl; [done|].
  unfold getitem. rewrite (H n) by left.
  destruct (s2 !! n); [|done]. apply IH. intros m Hm. apply H. by right.
Qed.

Lemma resolve_items_ext rec1 rec2 items final :
  Forall (fun kv => rec1 (snd kv) = rec2 (snd kv)) items ->
  resolve_items rec1 items final = resolve_items rec2 items final.
Proof.
  intros H. revert final. induction H as [|[k v] items Hv _ IH]; intros final; simpl;
    [done|].
  simpl in Hv. rewrite Hv. destruct (rec2 v); [apply IH | done].
Qed.

Lemma resolve_elements_ext rec1 rec2 items final :
  Forall (fun v => rec1 v = rec2 v) items ->
  resolve_elements rec1 items final = resolve_elements rec2 items final.
Proof.
  intros H. revert final. induction H as [|v items Hv _ IH]; intros final; simpl;
    [done|].
  rewrite Hv. destruct (rec2 v); [apply IH | done].
Qed.

(** X15.  The resolver reads only the variables the value names: against
    two stores that agree on them it gives the same result or the same
    error. *)
Theorem resolve_variables_reads_names (value : Value) (s1 s2 : gmap string Value) :
  (forall n, n ∈ names_of value -> s1 !! n = s2 !! n) ->
  resolve_variables str_format value s1 = resolve_variables str_format value s2.
Proof.
  induction value as [ | | | | |items IH|items IH|name|t ns|p]
    using Value_nested_ind; intros H; try done.
  - simpl. apply resolve_elements_ext. apply Forall_forall. intros v Hv.
    rewrite Forall_forall in IH. apply (IH v Hv). intros n Hn. apply H. simpl.
    by apply (elem_of_concat_map names_of items n v).
  - simpl. apply resolve_items_ext. apply Forall_forall. intros kv Hkv.
    rewrite Forall_forall in IH. apply (IH kv Hkv). intros n Hn. apply H. simpl.
    by apply (elem_of_concat_map (fun kv => names_of (snd kv)) items n kv).
  - simpl. unfold getitem. rewrite (H name); [done | simpl; left].
  - simpl. by rewrite (lookup_all_agree s1 s2 ns []).
Qed.

Lemma lookup_all_error (variables : gmap string Value) names acc e :
  lookup_all variables names acc = Err e ->
  exists n, e = KeyError (VStr n) /\ n ∈ names /\ variables !! n = None.
Proof.
  revert acc. induction names as [|n names IH]; intros acc; simpl; [done|].
  unfold getitem. destruct (variables !! n) eqn:E.
  - intros H. destruct (IH _ H) as (m & -> & Hm & Hnone). exists m.
    split_and!; [done | by right | done].
  - intros [= <-]. exists n. split_and!; [done | left | done].
Qed.

Lemma resolve_items_error rec items final e :
  resolve_items rec items final = Err e ->
  exists k v e', (k, v) ∈ items /\ rec v = Err e' /\ e = set_key k e'.
Proof.
  revert final. induction items as [|[k v] items IH]; intros final; simpl; [done|].
  destruct (rec v) as [r|e'] eqn:E.
  - intros H. destruct (IH _ H) as (k' & v' & e'' & Hin & Hv & ->).
    exists k', v', e''. split_and!; [by right | done | done].
  - intros [= <-]. exists k, v, e'. split_and!; [left | done | done].
Qed.

Lemma resolve_elements_error rec items final e :
  resolve_elements rec items final = Err e ->
  exists v, v ∈ items /\ rec v = Err e.
Proof.
  revert final. induction items as [|v items IH]; intros final; simpl; [done|].
  destruct (rec v) as [r|e'] eqn:E.
  - intros H. destruct (IH _ H) as (v' & Hin & Hv). exists v'. split; [by right | done].
  - intros [= <-]. exists v. split; [left | done].
Qed.

(** X16.  The errors of the resolver: [KeyError] for a name of the value
    that is not bound, [UnresolvedValueError] with an empty method name
    for a placeholder of the value, or an error of the formatting of a
    [StringFormat], that a mapping above it may have given its key.  It
    raises nothing else. *)
Theorem resolve_variables_errors (value : Value) (variables : gmap string Value)
    (e : exn) :
  resolve_variables str_format value variables = Err e ->
  (exists n, e = KeyError (VStr n) /\ n ∈ names_of value /\ variables !! n = None)
  \/ (exists k p, e = UnresolvedValueError k p "" /\ p ∈ placeholders_of value)
  \/ (exists t kwargs e0,
        str_format t kwargs = Err e0 /\ (e = e0 \/ exists k, e = set_key k e0)).
Proof.
  revert e.
  induction value as [ | | | | |items IH|items IH|name|t ns|p]
    using Value_nested_ind; intros e; try done.
  - simpl. intros H. apply resolve_elements_error in H as (v & Hin & Hv).
    rewrite Forall_forall in IH.
    destruct (IH v Hin e Hv) as [(n & -> & Hn & Hnone)|[(k & p & -> & Hp)|H]].
    + left. exists n. split_and!; [done | | done].
      by apply (elem_of_concat_map names_of items n v).
    + right. left. exists k, p. split; [done|].
      by apply (elem_of_concat_map placeholders_of items p v).
    + by right; right.
  - simpl. intros H. apply resolve_items_error in H as (k & v & e' & Hin & Hv & ->).
    rewrite Forall_forall in IH.
    destruct (IH (k, v) Hin e' Hv) as [(n & -> & Hn & Hnone)|[(k' & p & -> & Hp)|H]].
    + left. exists n. split_and!; [done | | done].
      by apply (elem_of_concat_map (fun kv => names_of (snd kv)) items n (k, v)).
    + right. left. exists k, p. split; [done|].
      by apply (elem_of_concat_map (fun kv => placeholders_of (snd kv)) items p (k, v)).
    + right. right. destruct H as (t & kwargs & e0 & He0 & [->|[k' ->]]).
      * exists t, kwargs, e0. split; [done|]. right. by exists k.
      * exists t, kwargs, e0. split; [done|]. right. exists k. by destruct e0.
  - simpl. unfold getitem. destruct (variables !! name) eqn:E; [done|].
    intros [= <-]. left. exists name. split_and!; [done | left | done].
  - simpl. destruct (lookup_all variables ns []) as [kwargs|e'] eqn:E.
    + destruct (str_format t kwargs) as [s|e'] eqn:E'; [done|].
      intros [= <-]. right. right. exists t, kwargs, e'. split; [done | by left].
    + intros [= <-]. left. by apply lookup_all_error in E.
  - simpl. intros [= <-]. right. left. exists "", p. split; [done | left].
Qed.

(** X17.  Data without a [Variable], a [StringFormat] or a placeholder
    resolves to itself, whatever the store holds. *)
Theorem resolve_variables_plain_data (value : Value) (variables : gmap string Value) :
  plain value = true -> wf_value value = true ->
  resolve_variables str_format value variables = Ok value.
Proof. apply resolve_variables_plain. Qed.
End ResolverMore.

(** ** Strings *)

Lemma split_nonempty sep s : split sep s <> [].
Proof.
  destruct s as [|c s]; simpl; [done|].
  destruct (Ascii.eqb c sep); [done|]. by destruct (split sep s).
Qed.

Lemma join_cons sep l rest :
  rest <> [] -> join sep (l :: rest) = l +:+ sep +:+ join sep rest.
Proof. by destruct rest. Qed.

Lemma for_all_occurs_cons sep c p ps :
  Ascii.eqb c sep = false ->
  Forall (fun q => occurs sep q = false) (p :: ps) ->
  Forall (fun q => occurs sep q = false) (String c p :: ps).
Proof.
  intros Hc H. apply Forall_cons in H as [Hp Hps]. constructor; [|done].
  simpl. by rewrite Hc.
Qed.

(** [split] loses nothing and leaves no separator: joining the segments
    with the separator gives the string back, no segment holds the
    separator, and splitting what was joined from such segments gives the
    segments back. *)
Lemma split_join (sep : ascii) :
  (forall s, join (String sep EmptyString) (split sep s) = s)
  /\ (forall s, Forall (fun p => occurs sep p = false) (split sep s))
  /\ (forall parts,
        parts <> [] ->
        Forall (fun p => occurs sep p = false) parts ->
        split sep (join (String sep EmptyString) parts) = parts).
Proof.
  split_and!.
  - induction s as [|c s IH]; simpl; [done|].
    destruct (Ascii.eqb c sep) eqn:E.
    + apply Ascii.eqb_eq in E. subst c.
      rewrite join_cons by apply split_nonempty. by rewrite IH.
    + pose proof (split_nonempty sep s) as Hne.
      destruct (split sep s) as [|p ps]; [done|].
      destruct ps as [|q ps]; simpl in *; by rewrite <- IH.
  - induction s as [|c s IH]; simpl; [by repeat constructor|].
    destruct (Ascii.eqb c sep) eqn:E; [by constructor|].
    pose proof (split_nonempty sep s) as Hne.
    destruct (split sep s) as [|p ps]; [done|]. by apply for_all_occurs_cons.
  - intros parts Hne Hall. induction Hall as [|p parts Hp Hall IH]; [done|].
    clear Hne. destruct parts as [|q parts].
    + simpl. clear IH Hall. induction p as [|c p IHp]; simpl; [done|].
      simpl in Hp. apply orb_false_iff in Hp as [Hc Hp]. rewrite Hc.
      by rewrite (IHp Hp).
    + rewrite join_cons by done. specialize (IH ltac:(done)).
      clear Hall. remember (join (String sep "") (q :: parts)) as J eqn:HJ.
      clear HJ. induction p as [|c p IHp].
      * change ("" +:+ String sep "" +:+ J) with (String sep J).
        simpl. rewrite Ascii.eqb_refl. by rewrite IH.
      * simpl in Hp. apply orb_false_iff in Hp as [Hc Hp].
        change (String c p +:+ String sep "" +:+ J)
          with (String c (p +:+ String sep "" +:+ J)).
        simpl. rewrite Hc. by rewrite (IHp Hp).
Qed.

Section ParseArn.
Variable str_format : string -> list (string * Value) -> result string.
Context {C : Type}.

(** X18.  [parse_arn] reads an ARN as it was written: for the string made
    of five or more segments without a colon, joined by colons,
    [output_var] is bound to the third, fourth and fifth segment as the
    service, the region and the account id, and, in a sound store, every
    other variable reads as before. *)
Theorem parse_arn_of_joined (st : Executor C) (args : Value) (output_var : string)
    (p0 p1 service region account_id : string) (more : list string)
    (rest : list Value) :
  Forall (fun p => occurs ":" p = false)
    (p0 :: p1 :: service :: region :: account_id :: more) ->
  resolve_variables str_format args (store_view st)
  = Ok (VList (VStr (join ":" (p0 :: p1 :: service :: region :: account_id :: more))
               :: rest)) ->
  exists st',
    _do_builtinfunction str_format (BuiltinFunction "parse_arn" args output_var) st
    = (Ok tt, st')
    /\ read_var st' output_var
       = Some (VDict [("service", VStr service);
                      ("region", VStr region);
                      ("account_id", VStr account_id)])
    /\ (store_ok st -> forall other, other <> output_var ->
                                     read_var st' other = read_var st other).
Proof.
  intros Hparts Hargs.
  assert (Hsplit :
    split ":" (join ":" (p0 :: p1 :: service :: region :: account_id :: more))
    = p0 :: p1 :: service :: region :: account_id :: more)
    by (by apply split_join).
  remember (join ":" (p0 :: p1 :: service :: region :: account_id :: more))
    as arn eqn:Harn. clear Harn.
  unfold _do_builtinfunction, bind, resolve, lift. simpl. rewrite Hargs. simpl.
  rewrite Hsplit. simpl.
  exists (with_variables (<[output_var := length (objects st)]> (variables st))
            (with_objects
               (objects st ++ [VDict [("service", VStr service);
                                      ("region", VStr region);
                                      ("account_id", VStr account_id)]]) st)).
  split_and!.
  - reflexivity.
  - apply read_var_new_object.
  - intros Hok other Hne. by apply read_var_new_object_ne.
Qed.
End ParseArn.

Lemma upper_char_underscore c : Ascii.eqb (upper_char c) "_" = Ascii.eqb c "_".
Proof. destruct c as [[] [] [] [] [] [] [] []]; reflexivity. Qed.

Lemma without_upper s : without "_" (upper s) = upper (without "_" s).
Proof.
  unfold upper. induction s as [|c s IH]; simpl; [done|].
  rewrite upper_char_underscore. destruct (Ascii.eqb c "_"); simpl; by rewrite IH.
Qed.

Lemma first_cap_step mode c v :
  exists mode',
    DisplayOnlyExecutor.first_cap mode (String c v)
    = String c (DisplayOnlyExecutor.first_cap mode' v)
    \/ DisplayOnlyExecutor.first_cap mode (String c v)
       = String "_" (String c (DisplayOnlyExecutor.first_cap mode' v)).
Proof.
  destruct mode; cbn [DisplayOnlyExecutor.first_cap]; repeat case_match; eauto.
Qed.

Lemma without_first_cap v : forall mode,
  without "_" (DisplayOnlyExecutor.first_cap mode v) = without "_" v.
Proof.
  induction v as [|c v IH]; intros mode; [by destruct mode|].
  destruct (first_cap_step mode c v) as [mode' [-> | ->]]; simpl; by rewrite IH.
Qed.

Lemma without_end_cap v :
  without "_" (DisplayOnlyExecutor.end_cap v) = without "_" v.
Proof.
  induction v as [|c v IH]; [done|].
  simpl. destruct v as [|u v]; [done|].
  destruct ((is_lower c || is_digit c) && is_upper u); simpl in *; by rewrite IH.
Qed.

(** X19.  [_upper_snake_case] only puts underscores in and turns small
    letters into capitals: without the underscores, its result is the
    name in capitals without its underscores. *)
Theorem upper_snake_case_letters (v : string) :
  without "_" (DisplayOnlyExecutor._upper_snake_case v) = without "_" (upper v).
Proof.
  unfold DisplayOnlyExecutor._upper_snake_case.
  by rewrite !without_upper, without_end_cap, without_first_cap.
Qed.

(** ** The display *)

Section DisplayMore.
Variable py_str pformat : Value -> string.

Lemma write_fields_appends fields : forall name ui sp,
  DisplayOnlyExecutor.write_fields py_str name fields ui sp
  = (ui ++ fst (DisplayOnlyExecutor.write_fields py_str name fields [] sp),
     snd (DisplayOnlyExecutor.write_fields py_str name fields [] sp))
  /\ length (fst (DisplayOnlyExecutor.write_fields py_str name fields [] sp))
     = length fields.
Proof.
  induction fields as [|[key value] fields IH]; intros name ui sp; simpl.
  - by rewrite app_nil_r.
  - destruct (match value with
              | VDict d => DisplayOnlyExecutor._format_dict py_str d sp
              | _ => (DisplayOnlyExecutor.str_of py_str value, sp)
              end) as [cell sp'].
    destruct (IH EmptyString
                (ui ++ [DisplayOnlyExecutor.instruction_line name key cell +:+ newline])
                sp') as [-> _].
    destruct (IH EmptyString
                [DisplayOnlyExecutor.instruction_line name key cell +:+ newline]
                sp') as [-> Hlen].
    simpl. rewrite <- app_assoc. simpl. split; [done|]. by rewrite Hlen.
Qed.

Lemma default_handler_appends i ui sp :
  DisplayOnlyExecutor._default_handler py_str i ui sp
  = (ui ++ fst (DisplayOnlyExecutor._default_handler py_str i [] sp),
     snd (DisplayOnlyExecutor._default_handler py_str i [] sp))
  /\ length (fst (DisplayOnlyExecutor._default_handler py_str i [] sp))
     = S (length (asdict i)).
Proof.
  unfold DisplayOnlyExecutor._default_handler.
  destruct (write_fields_appends (asdict i)
              (DisplayOnlyExecutor._upper_snake_case (class_name i)) ui sp) as [-> _].
  destruct (write_fields_appends (asdict i)
              (DisplayOnlyExecutor._upper_snake_case (class_name i)) [] sp) as [_ Hlen].
  destruct (DisplayOnlyExecutor.write_fields py_str _ (asdict i) [] sp) as [lines sp'].
  simpl in *. rewrite <- app_assoc, length_app, Hlen. simpl. split; [done | lia].
Qed.

Lemma execute_all_appends instrs : forall ui sp,
  DisplayOnlyExecutor.execute_all py_str instrs ui sp
  = (ui ++ fst (DisplayOnlyExecutor.execute_all py_str instrs [] sp),
     snd (DisplayOnlyExecutor.execute_all py_str instrs [] sp))
  /\ length (fst (DisplayOnlyExecutor.execute_all py_str instrs [] sp))
     = list_sum (map (fun i => S (length (asdict i))) instrs).
Proof.
  induction instrs as [|i instrs IH]; intros ui sp; simpl.
  - by rewrite app_nil_r.
  - destruct (default_handler_appends i ui sp) as [-> _].
    destruct (default_handler_appends i [] sp) as [_ Hlen].
    destruct (DisplayOnlyExecutor._default_handler py_str i [] sp) as [lines sp'].
    simpl in *.
    destruct (IH (ui ++ lines) sp') as [-> _].
    destruct (IH lines sp') as [-> Hrest].
    simpl. rewrite app_assoc, length_app, Hlen, Hrest. split; [done | lia].
Qed.

Lemma write_spillover_appends sp ui :
  DisplayOnlyExecutor._write_spillover pformat sp ui
  = ui ++ DisplayOnlyExecutor._write_spillover pformat sp [].
Proof.
  unfold DisplayOnlyExecutor._write_spillover.
  destruct (negb (truthy (VDict sp))); [by rewrite app_nil_r|].
  simpl app at 2.
  generalize ["Variable Pool" +:+ newline; "=============" +:+ newline +:+ newline].
  induction sp as [|kv sp IH] using rev_ind; intros head.
  - done.
  - rewrite !fold_left_app. simpl. rewrite IH. by rewrite <- app_assoc.
Qed.

Lemma write_fields_block fields : forall name sp,
  exists cells,
    Forall2 (is_cell py_str) fields cells
    /\ fst (DisplayOnlyExecutor.write_fields py_str name fields [] sp)
       = field_lines name fields cells.
Proof.
  induction fields as [|[key value] fields IH]; intros name sp.
  - exists []. split; [constructor | done].
  - simpl.
    assert (Hcell : is_cell py_str (key, value)
              (fst (match value with
                    | VDict d => DisplayOnlyExecutor._format_dict py_str d sp
                    | _ => (DisplayOnlyExecutor.str_of py_str value, sp)
                    end))).
    { unfold is_cell. destruct value; simpl; try done. by exists sp. }
    destruct (match value with
              | VDict d => DisplayOnlyExecutor._format_dict py_str d sp
              | _ => (DisplayOnlyExecutor.str_of py_str value, sp)
              end) as [cell sp'].
    simpl in Hcell.
    destruct (write_fields_appends fields EmptyString
                [DisplayOnlyExecutor.instruction_line name key cell +:+ newline] sp')
      as [-> _].
    destruct (IH EmptyString sp') as (cells & Hcells & ->).
    exists (cell :: cells). split; [by constructor | done].
Qed.

Lemma default_handler_block i sp :
  is_block py_str i (fst (DisplayOnlyExecutor._default_handler py_str i [] sp)).
Proof.
  unfold DisplayOnlyExecutor._default_handler, is_block.
  destruct (write_fields_block (asdict i)
              (DisplayOnlyExecutor._upper_snake_case (class_name i)) sp)
    as (cells & Hcells & Hlines).
  destruct (DisplayOnlyExecutor.write_fields py_str _ (asdict i) [] sp) as [lines sp'].
  simpl in *. exists cells. by rewrite Hlines.
Qed.

(** X20.  The display only adds to what was written, and what it adds
    does not depend on what came before.  The instructions are written in
    the order of the plan, each as one line for each of its attributes, in
    their order, the first one under the name of the instruction, and
    then one empty line; a run writes the heading, the instructions, and
    the variable pool, in this order. *)
Theorem display_appends (instrs : list Instruction) :
  (forall ui sp,
     DisplayOnlyExecutor.execute_all py_str instrs ui sp
     = (ui ++ fst (DisplayOnlyExecutor.execute_all py_str instrs [] sp),
        snd (DisplayOnlyExecutor.execute_all py_str instrs [] sp)))
  /\ (forall sp,
        exists blocks,
          Forall2 (is_block py_str) instrs blocks
          /\ fst (DisplayOnlyExecutor.execute_all py_str instrs [] sp)
             = concat blocks)
  /\ (forall messages ui,
        DisplayOnlyExecutor.execute py_str pformat
          {| instructions := instrs; messages := messages |} ui
        = ui ++ ["Plan" +:+ newline; "====" +:+ newline +:+ newline]
             ++ fst (DisplayOnlyExecutor.execute_all py_str instrs [] [])
             ++ DisplayOnlyExecutor._write_spillover pformat
                  (snd (DisplayOnlyExecutor.execute_all py_str instrs [] [])) []).
Proof.
  split_and!.
  - intros ui sp. apply execute_all_appends.
  - induction instrs as [|i rest IH]; intros sp.
    + exists []. split; [constructor | done].
    + simpl. pose proof (default_handler_block i sp) as Hblock.
      destruct (DisplayOnlyExecutor._default_handler py_str i [] sp) as [lines sp'].
      simpl in Hblock.
      destruct (execute_all_appends rest lines sp') as [-> _].
      destruct (IH sp') as (blocks & Hblocks & ->).
      exists (lines :: blocks). split; [by constructor | done].
  - intros messages ui. unfold DisplayOnlyExecutor.execute. simpl instructions.
    destruct (execute_all_appends instrs
                (ui ++ ["Plan" +:+ newline; "====" +:+ newline +:+ newline]) [])
      as [-> _].
    destruct (DisplayOnlyExecutor.execute_all py_str instrs [] []) as [lines sp].
    simpl fst. simpl snd.
    rewrite write_spillover_appends.
    by rewrite <- !app_assoc.
Qed.
End DisplayMore.

(** ** Examples *)

Lemma example_store_ok : store_ok example_store.
Proof.
  intros name l H. simpl in H.
  apply lookup_insert_Some in H as [[_ <-]|[_ H]]; [simpl; lia|].
  apply lookup_insert_Some in H as [[_ <-]|[_ H]]; [simpl; lia|].
  by rewrite lookup_empty in H.
Qed.

Lemma run_leaves_records_witness :
  let plan := {| instructions := [StoreValue "x" (VInt 1); CopyVariable "x" "y";
                                  CopyVariable "missing" "z"];
                 messages := ∅ |} in
  let st' := snd (execute str_format_fragment client_fragment jmespath_fragment
                    plan example_store) in
  same_records example_store st' /\ output st' = output example_store.
Proof.
  intros plan st'.
  apply (run_leaves_records str_format_fragment client_fragment
           jmespath_fragment plan example_store).
  repeat constructor.
Defined.

Lemma run_records_leaves_store_witness :
  let plan := {| instructions := [RecordResourceValue "role" "iam_role" "arn" (VInt 1);
                                  RecordResourceVariable "role" "iam_role" "items" "a"];
                 messages := ∅ |} in
  let st' := snd (execute str_format_fragment client_fragment jmespath_fragment
                    plan example_store) in
  same_store example_store st'
  /\ read_var st' "a" = read_var example_store "a".
Proof.
  intros plan st'.
  destruct (run_records_leaves_store str_format_fragment client_fragment
              jmespath_fragment plan example_store) as [Hsame Hread].
  - repeat constructor.
  - split; [exact Hsame | exact (Hread "a")].
Defined.

Lemma run_leaves_client_witness :
  let plan := {| instructions := [StoreValue "x" (VVariable "a"); JPSearch "a" "@" "b"];
                 messages := ∅ |} in
  client (snd (execute str_format_fragment client_fragment jmespath_fragment
                 plan example_store))
  = client example_store.
Proof.
  intros plan.
  apply (run_leaves_client str_format_fragment client_fragment
           jmespath_fragment plan example_store).
  repeat constructor.
Defined.


Lemma run_announces_witness :
  let messages : gmap nat string :=
    {[0 := "Creating role"; 1 := "Copying"; 2 := "Storing"]} in
  let pre := [StoreValue "x" (VInt 1)] in
  let failing := CopyVariable "missing" "y" in
  let post := [StoreValue "z" (VInt 2)] in
  let run_from := execute_from str_format_fragment client_fragment jmespath_fragment
                    messages 0 in
  let st1 := snd (run_from pre example_store) in
  let st2 := snd (run_from (pre ++ failing :: post) example_store) in
  ui st1 = ui example_store ++ announced messages 0 1
  /\ (run_from (pre ++ failing :: post) example_store
      = (Err (KeyError (VStr "missing")), st2)
      /\ ui st2 = ui example_store ++ announced messages 0 2)
  /\ exists pre' i post' st1',
       pre ++ failing :: post = pre' ++ i :: post'
       /\ run_from pre' example_store = (Ok tt, st1')
       /\ step str_format_fragment client_fragment jmespath_fragment messages
            (0 + length pre') i st1'
          = (Err (KeyError (VStr "missing")), st2).
Proof.
  intros messages pre failing post run_from st1 st2.
  destruct (run_announces str_format_fragment client_fragment jmespath_fragment
              messages 0) as (Hok & Hstop & Hsplit).
  split; [|split].
  - refine (Hok pre example_store st1 _). reflexivity.
  - refine (Hstop pre failing post example_store st1 (KeyError (VStr "missing")) st2
              _ _); reflexivity.
  - refine (Hsplit (pre ++ failing :: post) example_store
              (KeyError (VStr "missing")) st2 _). reflexivity.
Defined.

Lemma apicall_calls_client_witness :
  let params := VDict [("RoleName", VVariable "a")] in
  let role := VDict [("Arn", VStr "arn:aws:iam::123456789012:role/app")] in
  (exists st',
     _do_apicall str_format_fragment client_fragment
       (APICall "get_role" params (Some "role")) example_store = (Ok tt, st')
     /\ client st' = 1
     /\ read_var st' "role" = Some role
     /\ read_var st' "a" = read_var example_store "a")
  /\ _do_apicall str_format_fragment client_fragment
       (APICall "get_role" params None) example_store
     = (Ok tt, with_client 1 example_store)
  /\ _do_apicall str_format_fragment client_failing
       (APICall "get_role" params (Some "role")) example_store
     = (Err (ExternalError "AccessDenied"), with_client 1 example_store).
Proof.
  intros params role.
  destruct (apicall_calls_client str_format_fragment client_fragment
              example_store "get_role" params [("RoleName", VList [VInt 1])]
              (fun kwargs calls => (Ok role, S calls)) eq_refl eq_refl)
    as (Hbound & Hunbound & _).
  destruct (apicall_calls_client str_format_fragment client_failing
              example_store "get_role" params [("RoleName", VList [VInt 1])]
              (fun kwargs calls => (Err (ExternalError "AccessDenied"), S calls))
              eq_refl eq_refl)
    as (_ & _ & Hraises).
  split_and!.
  - destruct (Hbound role 1 "role" eq_refl) as (st' & Hrun & Hclient & Hread & Hframe).
    exists st'. split_and!; [exact Hrun | exact Hclient | exact Hread |].
    apply (Hframe example_store_ok). discriminate.
  - exact (Hunbound role 1 eq_refl).
  - exact (Hraises (ExternalError "AccessDenied") 1 (Some "role") eq_refl).
Defined.

Lemma apicall_without_call_witness :
  _do_apicall str_format_fragment client_fragment
    (APICall "get_role" (VDict [("RoleName", VVariable "missing")]) None) example_store
  = (Err (KeyError (VStr "missing")), example_store)
  /\ _do_apicall str_format_fragment client_fragment
       (APICall "delete_role" (VDict []) None) example_store
     = (Err AttributeError, example_store)
  /\ _do_apicall str_format_fragment client_fragment
       (APICall "get_role" (VList []) None) example_store
     = (Err TypeError, example_store).
Proof.
  split_and!.
  - exact (proj1 (apicall_without_call str_format_fragment client_fragment
                    example_store "get_role"
                    (VDict [("RoleName", VVariable "missing")]) None)
             (KeyError (VStr "missing")) eq_refl).
  - exact (proj1 (proj2 (apicall_without_call str_format_fragment client_fragment
                           example_store "delete_role" (VDict []) None))
             (VDict []) eq_refl eq_refl).
  - refine (proj2 (proj2 (apicall_without_call str_format_fragment client_fragment
                            example_store "get_role" (VList []) None))
              (VList []) (fun kwargs calls => _) eq_refl eq_refl _).
    intros kwargs. discriminate.
Defined.

Lemma storevalue_stores_witness :
  (exists st',
     _do_storevalue str_format_fragment (StoreValue "b" (VVariable "a")) example_store
     = (Ok tt, st')
     /\ read_var st' "b" = Some (VList [VInt 1])
     /\ read_var st' "arn" = read_var example_store "arn"
     /\ variables st' !! "b" = variables example_store !! "a"
     /\ objects st' = objects example_store)
  /\ _do_storevalue str_format_fragment (StoreValue "b" (VVariable "missing"))
       example_store
     = (Err (KeyError (VStr "missing")), example_store).
Proof.
  split.
  - destruct (proj1 (storevalue_stores str_format_fragment example_store "b"
                       (VVariable "a")) (VList [VInt 1]) eq_refl)
      as (st' & Hrun & Hread & Hframe & Hshare).
    exists st'. split_and!; [exact Hrun | exact Hread | | |].
    + apply (Hframe example_store_ok). discriminate.
    + exact (proj1 (Hshare "a" eq_refl)).
    + exact (proj2 (Hshare "a" eq_refl)).
  - exact (proj2 (storevalue_stores str_format_fragment example_store "b"
                    (VVariable "missing")) (KeyError (VStr "missing")) eq_refl).
Defined.

Lemma jpsearch_searches_witness :
  (exists st',
     _do_jpsearch jmespath_fragment (JPSearch "a" "@" "found") example_store
     = (Ok tt, st')
     /\ read_var st' "found" = Some (VList [VInt 1])
     /\ read_var st' "arn" = read_var example_store "arn")
  /\ _do_jpsearch jmespath_fragment (JPSearch "missing" "@" "found") example_store
     = (Err (KeyError (VStr "missing")), example_store)
  /\ _do_jpsearch jmespath_failing (JPSearch "a" "@" "found") example_store
     = (Err (ExternalError "ParseError"), example_store).
Proof.
  split_and!.
  - destruct (proj1 (jpsearch_searches jmespath_fragment example_store "a" "@" "found")
                0 (VList [VInt 1]) eq_refl eq_refl)
      as (st' & Hrun & Hread & Hframe).
    exists st'. split_and!; [exact Hrun | exact Hread |].
    apply (Hframe example_store_ok). discriminate.
  - exact (proj1 (proj2 (jpsearch_searches jmespath_fragment example_store
                           "missing" "@" "found")) eq_refl).
  - exact (proj2 (proj2 (jpsearch_searches jmespath_failing example_store
                           "a" "@" "found"))
             0 (ExternalError "ParseError") eq_refl eq_refl).
Defined.

Lemma copyvariable_frame_witness :
  let st' := snd (_do_copyvariable (CopyVariable "a" "b") example_store) in
  read_var st' "arn" = read_var example_store "arn"
  /\ read_var (snd (_do_copyvariable (CopyVariable "b" "c") st')) "c"
     = read_var example_store "a".
Proof.
  intros st'.
  destruct (copyvariable_frame example_store "a" "b" 0 eq_refl)
    as (Hframe & _ & Hcopy).
  split; [apply Hframe; discriminate | exact (Hcopy "c")].
Defined.

Lemma run_stops_at_first_error_witness :
  let pre := [StoreValue "x" (VInt 1)] in
  let post := [StoreValue "z" (VInt 2)] in
  let st1 := snd (execute_from str_format_fragment client_fragment jmespath_fragment
                    ∅ 0 pre example_store) in
  execute str_format_fragment client_fragment jmespath_fragment
    {| instructions := pre ++ CopyVariable "missing" "y" :: post; messages := ∅ |}
    example_store
  = (Err (KeyError (VStr "missing")), st1)
  /\ execute str_format_fragment client_fragment jmespath_fragment
       {| instructions := pre ++ post; messages := ∅ |} example_store
     = execute_from str_format_fragment client_fragment jmespath_fragment
         ∅ 1 post st1.
Proof.
  intros pre post st1.
  destruct (run_stops_at_first_error str_format_fragment client_fragment
              jmespath_fragment ∅ pre example_store st1)
    as [Hstop Hseq].
  - reflexivity.
  - split.
    + apply (Hstop (CopyVariable "missing" "y") post). reflexivity.
    + exact (Hseq post).
Defined.

Lemma builtinfunction_parse_arn_errors_witness :
  _do_builtinfunction str_format_fragment
    (BuiltinFunction "parse_arn" (VList [VStr "arn:aws"]) "parsed") example_store
  = (Err IndexError, example_store)
  /\ _do_builtinfunction str_format_fragment
       (BuiltinFunction "parse_arn" (VList []) "parsed") example_store
     = (Err IndexError, example_store)
  /\ _do_builtinfunction str_format_fragment
       (BuiltinFunction "parse_arn" (VList [VVariable "missing"]) "parsed")
       example_store
     = (Err (KeyError (VStr "missing")), example_store).
Proof.
  split_and!.
  - refine (proj1 (builtinfunction_parse_arn_errors str_format_fragment
                     example_store (VList [VStr "arn:aws"]) "parsed")
              "arn:aws" [] eq_refl _).
    vm_compute. lia.
  - exact (proj1 (proj2 (builtinfunction_parse_arn_errors str_format_fragment
                           example_store (VList []) "parsed")) eq_refl).
  - exact (proj2 (proj2 (builtinfunction_parse_arn_errors str_format_fragment
                           example_store (VList [VVariable "missing"]) "parsed"))
             (KeyError (VStr "missing")) eq_refl).
Defined.

Lemma resolve_variables_reads_names_witness :
  let value := VDict [("Role", VVariable "role")] in
  let s1 : gmap string Value := <["role" := VStr "app"]> (<["n" := VInt 1]> ∅) in
  let s2 : gmap string Value := <["role" := VStr "app"]> (<["n" := VInt 2]> ∅) in
  resolve_variables str_format_fragment value s1
  = resolve_variables str_format_fragment value s2.
Proof.
  intros value s1 s2.
  apply (resolve_variables_reads_names str_format_fragment value s1 s2).
  intros n Hn. simpl in Hn. apply list_elem_of_singleton in Hn. subst n.
  reflexivity.
Defined.

Lemma resolve_variables_errors_witness :
  let value := VList [VVariable "missing"] in
  (exists n, KeyError (VStr "missing") = KeyError (VStr n)
             /\ n ∈ names_of value /\ (∅ : gmap string Value) !! n = None)
  \/ (exists k p, KeyError (VStr "missing") = UnresolvedValueError k p ""
                  /\ p ∈ placeholders_of value)
  \/ (exists t kwargs e0,
        str_format_fragment t kwargs = Err e0
        /\ (KeyError (VStr "missing") = e0
            \/ exists k, KeyError (VStr "missing") = set_key k e0)).
Proof.
  intros value.
  apply (resolve_variables_errors str_format_fragment value ∅
           (KeyError (VStr "missing"))).
  reflexivity.
Defined.

Lemma resolve_variables_plain_data_witness :
  let value := VDict [("Runtime", VStr "python3.9"); ("Timeout", VInt 60)] in
  resolve_variables str_format_fragment value ∅ = Ok value.
Proof.
  intros value.
  apply (resolve_variables_plain_data str_format_fragment value ∅); reflexivity.
Defined.

Lemma parse_arn_of_joined_witness :
  exists st',
    _do_builtinfunction str_format_fragment
      (BuiltinFunction "parse_arn" (VList [VVariable "arn"]) "parsed") example_store
    = (Ok tt, st')
    /\ read_var st' "parsed"
       = Some (VDict [("service", VStr "lambda");
                      ("region", VStr "us-west-2");
                      ("account_id", VStr "123456789012")])
    /\ read_var st' "a" = read_var example_store "a".
Proof.
  destruct (parse_arn_of_joined str_format_fragment example_store
              (VList [VVariable "arn"]) "parsed"
              "arn" "aws" "lambda" "us-west-2" "123456789012" ["function"; "foo"] [])
    as (st' & Hrun & Hread & Hframe).
  - repeat constructor.
  - reflexivity.
  - exists st'. split_and!; [exact Hrun | exact Hread |].
    apply (Hframe example_store_ok). discriminate.
Defined.
